(** * Character-level n-gram language model: train, generate, perplexity

    A shallow embedding of the three functions of the notebook
    [nbs/n-gram music reviews.ipynb]: [normalize], [train_char_lm],
    [generate_letter], [generate_text] and [perplexity].

    Modelling choices.
    - A Python [str] is a [list ascii]; slicing and indexing are written out
      with the clipping (slices) and the [IndexError] (indexing) of Python.
    - A Python [dict] (also [defaultdict] and [Counter]) is an association
      list in insertion order: [generate_letter] walks [dist.items()] in that
      order, so the order is part of the behaviour.
    - Exceptions are values of [exn]; a function that may raise returns a
      [result].
    - Python floats are idealised: the quotients [cnt / s] are exact
      rationals ([Q]), and [math.log] / [math.exp] are the real logarithm and
      exponential ([R]).  Rounding is not modelled.
    - [random()] is an injected stream of draws, one per generation step. *)

From Stdlib Require Import Ascii String.
From Stdlib Require Import List Arith Bool Lia.
From Stdlib Require Import ZArith QArith Qreals Qabs Reals Lra Permutation.
Import ListNotations.

Set Implicit Arguments.
Local Open Scope nat_scope.

(** ** Python values *)

Definition str := list ascii.

Definition str_eq_dec : forall s t : str, {s = t} + {s <> t} :=
  list_eq_dec ascii_dec.

(** The exceptions the modelled code can raise. *)
Inductive exn : Type :=
| KeyError (key : str)
| IndexError
| ZeroDivisionError
| ValueError
| TypeError.

Inductive result (A : Type) : Type :=
| Ok (a : A)
| Raise (e : exn).

Arguments Ok {A} a.
Arguments Raise {A} e.

Definition bind {A B : Type} (m : result A) (k : A -> result B) : result B :=
  match m with
  | Ok a => k a
  | Raise e => Raise e
  end.

Notation "x <- m ;; k" := (bind m (fun x => k))
  (at level 61, m at next level, right associativity).
Notation "' p <- m ;; k" := (bind m (fun p => k))
  (at level 61, p pattern, m at next level, right associativity).

(** [for x in xs: st = body(st, x)], where the body may raise. *)
Fixpoint foldM {A S : Type} (body : S -> A -> result S) (xs : list A) (st : S)
  : result S :=
  match xs with
  | [] => Ok st
  | x :: xs' => st' <- body st x ;; foldM body xs' st'
  end.

(** A comprehension [[f(x) for x in xs]] whose element expression may raise. *)
Fixpoint mapM {A B : Type} (f : A -> result B) (xs : list A) : result (list B) :=
  match xs with
  | [] => Ok []
  | x :: xs' => y <- f x ;; ys <- mapM f xs' ;; Ok (y :: ys)
  end.

(** [range(k)] *)
Definition range (k : nat) : list nat := seq 0 k.

(** [data[i:j]] for [0 <= i]: clipped to the string, empty when [j <= i]. *)
Definition slice (data : str) (i j : nat) : str := firstn (j - i) (skipn i data).

(** [data[i]] for [0 <= i]. *)
Definition index (data : str) (i : nat) : result ascii :=
  match nth_error data i with
  | Some c => Ok c
  | None => Raise IndexError
  end.

(** [history[-n:]]: the last [n] characters; for [n = 0] this is
    [history[0:]], the whole string. *)
Definition last_n (history : str) (n : nat) : str :=
  if n =? 0 then history else skipn (length history - n) history.

(** ['~' * n] *)
Definition pad_char : ascii := "~"%char.
Definition pad (n : nat) : str := repeat pad_char n.

(** [''.join([pad + text for text in texts])] *)
Definition padded (texts : list str) (n : nat) : str :=
  concat (map (fun text => pad n ++ text) texts).

(** ** Insertion-ordered dictionaries *)

Section Dict.
Variables (K V : Type).
Variable K_eq_dec : forall a b : K, {a = b} + {a <> b}.

Definition dict := list (K * V).

(** [d.get(k)] *)
Fixpoint dget (d : dict) (k : K) : option V :=
  match d with
  | [] => None
  | (k', v) :: d' => if K_eq_dec k k' then Some v else dget d' k
  end.

(** [d[k] = v]: an existing key keeps its place, a new key goes last. *)
Fixpoint dset (d : dict) (k : K) (v : V) : dict :=
  match d with
  | [] => [(k, v)]
  | (k', v') :: d' =>
      if K_eq_dec k k' then (k', v) :: d' else (k', v') :: dset d' k v
  end.

(** [d.get(k, dflt)], the read of a [defaultdict] or [Counter]. *)
Definition dget_or (d : dict) (k : K) (dflt : V) : V :=
  match dget d k with
  | Some v => v
  | None => dflt
  end.

Definition keys (d : dict) : list K := map fst d.
Definition values (d : dict) : list V := map snd d.

End Dict.

Arguments dget {K V} K_eq_dec d k.
Arguments dset {K V} K_eq_dec d k v.
Arguments dget_or {K V} K_eq_dec d k dflt.
Arguments keys {K V} d.
Arguments values {K V} d.

(** [lm[k]] on a plain [dict]: raises [KeyError] on a missing key. *)
Definition getitem {V : Type} (lm : dict str V) (k : str) : result V :=
  match dget str_eq_dec lm k with
  | Some v => Ok v
  | None => Raise (KeyError k)
  end.

(** ** Numbers *)

Definition nat2Q (k : nat) : Q := inject_Z (Z.of_nat k).

(** [a / b] on two ints (true division). *)
Definition int_div (a b : nat) : result Q :=
  if b =? 0 then Raise ZeroDivisionError else Ok (nat2Q a / nat2Q b)%Q.

(** [a / b] on floats. *)
Definition float_div (a b : Q) : result Q :=
  if Qeq_bool b 0 then Raise ZeroDivisionError else Ok (a / b)%Q.

(** [math.log(x)]: a domain error unless [0 < x]. *)
Definition math_log (x : R) : result R :=
  if Rlt_dec 0 x then Ok (ln x) else Raise ValueError.

(** [sum(xs)] on ints and on floats. *)
Definition sum_nat (xs : list nat) : nat := fold_left Nat.add xs 0.
Definition sum_Q (xs : list Q) : Q := fold_left Qplus xs 0%Q.

(** ** The model *)

Definition counter := dict ascii nat.
Definition distribution := dict ascii Q.
Definition counts := dict str counter.
Definition model := dict str distribution.

(** [normalize(counter)] *)
Definition normalize (cntr : counter) : result distribution :=
  let s := sum_nat (values cntr) in
  mapM (fun '(c, cnt) => p <- int_div cnt s ;; Ok (c, p)) cntr.

(** [lm[history][char] += 1] on a [defaultdict(Counter)]: a missing history
    gets a fresh [Counter] (last in order), a missing character reads as 0. *)
Definition incr (lm : counts) (history : str) (char : ascii) : counts :=
  let chars := dget_or str_eq_dec lm history [] in
  dset str_eq_dec lm history
       (dset ascii_dec chars char (dget_or ascii_dec chars char 0 + 1)).

(** The counting loop of [train_char_lm]. *)
Definition count_loop (data : str) (n : nat) : result counts :=
  foldM (fun lm i =>
           let history := slice data i (i + n) in
           char <- index data (i + n) ;;
           Ok (incr lm history char))
        (range (length data - n)) [].

(** [train_char_lm(texts, n)] (timing and printing left out). *)
Definition train_char_lm (texts : list str) (n : nat) : result model :=
  let data := padded texts n in
  lm <- count_loop data n ;;
  mapM (fun '(hist, chars) => d <- normalize chars ;; Ok (hist, d)) lm.

(** ** Generation *)

(** The loop of [generate_letter]: subtract each probability from [x] in
    dictionary order and return at the first [x <= 0]; falling off the end
    returns [None].  The subtraction is exact here.  With floats the
    remainder can stay positive after the last entry for a draw just below
    1; no property below relies on the loop not falling through. *)
Fixpoint walk (dist : distribution) (x : Q) : option ascii :=
  match dist with
  | [] => None
  | (c, v) :: rest =>
      let x := (x - v)%Q in
      if Qle_bool x 0 then Some c else walk rest x
  end.

(** [generate_letter(lm, history, n)], with the value [x] of [random()]. *)
Definition generate_letter (lm : model) (history : str) (n : nat) (x : Q)
  : result (option ascii) :=
  let history := last_n history n in
  dist <- getitem lm history ;;
  Ok (walk dist x).

(** One iteration of the loop of [generate_text]; [history[-n:] + c] raises
    [TypeError] when [c] is [None]. *)
Definition generate_step (lm : model) (n : nat) (rng : nat -> Q)
  (st : str * str) (i : nat) : result (str * str) :=
  let '(history, out) := st in
  c <- generate_letter lm history n (rng i) ;;
  match c with
  | Some c => Ok (last_n history n ++ [c], out ++ [c])
  | None => Raise TypeError
  end.

(** The state [(history, out)] after [k] iterations. *)
Definition generate_loop (lm : model) (n : nat) (rng : nat -> Q) (k : nat)
  : result (str * str) :=
  foldM (generate_step lm n rng) (range k) (pad n, []).

(** [generate_text(lm, n, num_generate)]; [rng i] is the [i]-th draw. *)
Definition generate_text (lm : model) (n : nat) (num_generate : nat)
  (rng : nat -> Q) : result str :=
  '(_, out) <- generate_loop lm n rng num_generate ;;
  Ok out.

(** ** Perplexity *)

(** One iteration of the scan of [perplexity]. *)
Definition score_step (lm : model) (data : str) (n : nat)
  (st : R * dict str nat) (i : nat) : result (R * dict str nat) :=
  let '(logsum, unk_hist) := st in
  let history := slice data i (i + n) in
  char <- index data (i + n) ;;
  match dget str_eq_dec lm history with
  | None => Ok (logsum, unk_hist)
  | Some dist =>
      match dget ascii_dec dist char with
      | Some p => l <- math_log (Q2R p) ;; Ok ((logsum + l)%R, unk_hist)
      | None =>
          Ok (logsum,
              dset str_eq_dec unk_hist history
                   (dget_or str_eq_dec unk_hist history 0 + 1))
      end
  end.

(** One iteration of [for h in unk_hist]. *)
Definition unk_step (lm : model) (logsum : R) (h : str) : result R :=
  dist <- getitem lm h ;;
  let s := (sum_Q (values dist) + 1)%Q in
  q <- float_div 1 s ;;
  l <- math_log (Q2R q) ;;
  Ok (logsum + l)%R.

(** [perplexity(lm, test_data, n)] *)
Definition perplexity (lm : model) (test_data : list str) (n : nat) : result R :=
  let data := padded test_data n in
  '(logsum, unk_hist) <-
     foldM (score_step lm data n) (range (length data - n)) (0%R, []) ;;
  logsum <- foldM (unk_step lm) (keys unk_hist) logsum ;;
  if length data =? 0 then Raise ZeroDivisionError
  else Ok (exp (-1 * logsum / INR (length data)))%R.

(** ** Notions of the specification *)

(** String literals. *)
Definition lit (x : string) : str := list_ascii_of_string x.

(** The entry of a model for history [h] and character [c], if any. *)
Definition lookup (lm : model) (h : str) (c : ascii) : option Q :=
  match dget str_eq_dec lm h with
  | Some dist => dget ascii_dec dist c
  | None => None
  end.

(** Position [i] of the stream shows history [h]. *)
Definition hist_at (data : str) (n : nat) (h : str) (i : nat) : bool :=
  if str_eq_dec (slice data i (i + n)) h then true else false.

(** Position [i] of the stream shows history [h] followed by [c]. *)
Definition pair_at (data : str) (n : nat) (h : str) (c : ascii) (i : nat) : bool :=
  hist_at data n h i &&
  match nth_error data (i + n) with
  | Some c' => if ascii_dec c' c then true else false
  | None => false
  end.

(** Number of positions [i] from [0] to [len(S)-n-1] with
    [(S[i:i+n], S[i+n]) = (h, c)], and with [S[i:i+n] = h]. *)
Definition occ (data : str) (n : nat) (h : str) (c : ascii) : nat :=
  length (filter (pair_at data n h c) (range (length data - n))).

Definition occ_hist (data : str) (n : nat) (h : str) : nat :=
  length (filter (hist_at data n h) (range (length data - n))).

(** The (history, character) pairs of the sliding window, in scan order. *)
Definition pairs (data : str) (n : nat) : list (str * ascii) :=
  map (fun i => (slice data i (i + n), nth (i + n) data pad_char))
      (range (length data - n)).

Definition pair_eq_dec : forall a b : str * ascii, {a = b} + {a <> b}.
Proof. decide equality; [apply ascii_dec | apply str_eq_dec]. Defined.

(** The count stored for [(h, c)], and the total stored for [h]. *)
Definition cnt (lm : counts) (h : str) (c : ascii) : nat :=
  dget_or ascii_dec (dget_or str_eq_dec lm h []) c 0.

Definition total (lm : counts) (h : str) : nat :=
  sum_nat (values (dget_or str_eq_dec lm h [])).

(** The pairs of the windows that start in a document and its pad, when
    another document (so another pad) follows. *)
Definition block_pairs (n : nat) (d : str) : list (str * ascii) :=
  pairs ((pad n ++ d) ++ pad n) n.

(** The counting loop as a pure fold over the window pairs. *)
Definition count_pairs (ps : list (str * ascii)) (lm : counts) : counts :=
  fold_left (fun lm p => incr lm (fst p) (snd p)) ps lm.

(** [normalize] without its error case. *)
Definition normalize_pure (cntr : counter) : distribution :=
  map (fun e => (fst e, (nat2Q (snd e) / nat2Q (sum_nat (values cntr)))%Q)) cntr.

(** Every stored count is positive (a [Counter] entry is created by [+= 1]). *)
Definition positive_counts (lm : counts) : Prop :=
  forall h chars c k, In (h, chars) lm -> In (c, k) chars -> 0 < k.

(** A model whose entries are probabilities. *)
Definition valid_model (lm : model) : Prop :=
  forall h dist c p, In (h, dist) lm -> In (c, p) dist -> (0 < p /\ p <= 1)%Q.

Definition sum_R (xs : list R) : R := fold_right Rplus 0%R xs.
Definition prod_Q (xs : list Q) : Q := fold_right Qmult 1%Q xs.

(** The history at position [i] is a key of the model. *)
Definition known_at (lm : model) (data : str) (n : nat) (i : nat) : bool :=
  match dget str_eq_dec lm (slice data i (i + n)) with
  | Some _ => true
  | None => false
  end.

(** The history at position [i] is a key of the model, and the character
    that follows has no entry under it (an unknown outcome). *)
Definition unknown_at (lm : model) (data : str) (n : nat) (i : nat) : bool :=
  match dget str_eq_dec lm (slice data i (i + n)) with
  | Some dist =>
      match dget ascii_dec dist (nth (i + n) data pad_char) with
      | Some _ => false
      | None => true
      end
  | None => false
  end.

(** What position [i] adds to the log-sum: [ln p] when the model has the
    entry, nothing otherwise. *)
Definition position_term (lm : model) (data : str) (n : nat) (i : nat) : R :=
  match lookup lm (slice data i (i + n)) (nth (i + n) data pad_char) with
  | Some p => ln (Q2R p)
  | None => 0%R
  end.

(** What a history with unknown outcomes adds to the log-sum. *)
Definition unknown_term (lm : model) (h : str) : R :=
  ln (Q2R (1 / (sum_Q (values (dget_or str_eq_dec lm h [])) + 1))).

(** [h] is the history of a position of [l] with an unknown outcome. *)
Definition unknown_among (lm : model) (data : str) (n : nat) (l : list nat)
  (h : str) : Prop :=
  exists i, In i l /\ unknown_at lm data n i = true /\ slice data i (i + n) = h.

(** The same two contributions as factors of a rational likelihood. *)
Definition position_factor (lm : model) (data : str) (n : nat) (i : nat) : Q :=
  match lookup lm (slice data i (i + n)) (nth (i + n) data pad_char) with
  | Some p => p
  | None => 1%Q
  end.

Definition unknown_factor (lm : model) (h : str) : Q :=
  (1 / (sum_Q (values (dget_or str_eq_dec lm h [])) + 1))%Q.

(** The histories of the stream that have an unknown outcome, each once. *)
Definition unknown_histories (lm : model) (data : str) (n : nat) : list str :=
  nodup str_eq_dec
        (map (fun i => slice data i (i + n))
             (filter (unknown_at lm data n) (range (length data - n)))).

Definition likelihood (lm : model) (data : str) (n : nat) : Q :=
  (prod_Q (map (position_factor lm data n)
               (filter (known_at lm data n) (range (length data - n))))
   * prod_Q (map (unknown_factor lm) (unknown_histories lm data n)))%Q.

(** [q ** k] on rationals. *)
Fixpoint Qpow_nat (q : Q) (k : nat) : Q :=
  match k with
  | O => 1%Q
  | S k' => (q * Qpow_nat q k')%Q
  end.

(** The texts of the notebook's perplexity check. *)
Definition wheel : str := lit "The wheel has come full circle.".
Definition wheel_corrupted : str := lit "Tha weeel cos tome hell circle.".

(** The number of increments a count table holds. *)
Definition grand_total (lm : counts) : nat :=
  sum_nat (map (fun e => sum_nat (values (snd e))) lm).

(** Every stored counter has distinct keys and at least one entry. *)
Definition counters_well_formed (lm : counts) : Prop :=
  forall h chars, In (h, chars) lm -> NoDup (keys chars) /\ chars <> [].

(** Every character of [out] was drawn, with the draw of its step, from the
    distribution of the [n] characters before it in [pad ++ out]. *)
Definition drawn_from_model (lm : model) (n : nat) (rng : nat -> Q)
  (out : str) : Prop :=
  forall i, i < length out ->
    exists dist,
      dget str_eq_dec lm (slice (pad n ++ out) i (i + n)) = Some dist
      /\ walk dist (rng i) = Some (nth (i + n) (pad n ++ out) pad_char).

(** * Properties *)

(** ** Loops that do not raise *)

Lemma foldM_pure {A S : Type} (body : S -> A -> result S) (f : S -> A -> S) xs :
  (forall st x, In x xs -> body st x = Ok (f st x)) ->
  forall st, foldM body xs st = Ok (fold_left f xs st).
Proof.
  induction xs as [|x xs IH]; intros Hb st; simpl; [reflexivity|].
  rewrite Hb by (left; reflexivity). simpl.
  apply IH. intros st' y Hy. apply Hb. right; exact Hy.
Qed.

Lemma mapM_pure {A B : Type} (f : A -> result B) (g : A -> B) xs :
  (forall x, In x xs -> f x = Ok (g x)) -> mapM f xs = Ok (map g xs).
Proof.
  induction xs as [|x xs IH]; intros Hf; simpl; [reflexivity|].
  rewrite Hf by (left; reflexivity). simpl.
  rewrite IH by (intros y Hy; apply Hf; right; exact Hy). reflexivity.
Qed.

Lemma index_lt data i :
  i < length data -> index data i = Ok (nth i data pad_char).
Proof.
  intros Hi. unfold index.
  destruct (nth_error data i) as [c|] eqn:E.
  - f_equal. symmetry. apply nth_error_nth. exact E.
  - apply nth_error_None in E. lia.
Qed.

Lemma fold_left_mapped {A B S : Type} (f : S -> B -> S) (g : A -> B) xs :
  forall st, fold_left f (map g xs) st = fold_left (fun st x => f st (g x)) xs st.
Proof. induction xs as [|x xs IH]; intros st; simpl; [reflexivity|apply IH]. Qed.

Lemma count_loop_pairs data n :
  count_loop data n = Ok (count_pairs (pairs data n) []).
Proof.
  unfold count_loop, count_pairs, pairs.
  rewrite fold_left_mapped.
  apply foldM_pure. intros st i Hi.
  apply in_seq in Hi. rewrite index_lt by lia. reflexivity.
Qed.

(** ** Dictionaries *)

Section DictFacts.
Variables (K V : Type).
Variable dec : forall a b : K, {a = b} + {a <> b}.

Lemma dget_dset (d : dict K V) k v k' :
  dget dec (dset dec d k v) k' = if dec k' k then Some v else dget dec d k'.
Proof.
  induction d as [|[k0 v0] d IH]; simpl.
  - destruct (dec k' k); reflexivity.
  - destruct (dec k k0) as [->|Hk]; simpl.
    + destruct (dec k' k0); reflexivity.
    + destruct (dec k' k0) as [->|Hk'].
      * destruct (dec k0 k); [congruence|reflexivity].
      * exact IH.
Qed.

Lemma dget_In (d : dict K V) k v : dget dec d k = Some v -> In (k, v) d.
Proof.
  induction d as [|[k0 v0] d IH]; simpl; [discriminate|].
  destruct (dec k k0) as [->|Hk]; intros H.
  - left. congruence.
  - right. auto.
Qed.

Lemma dget_keys (d : dict K V) k : dget dec d k <> None <-> In k (keys d).
Proof.
  induction d as [|[k0 v0] d IH]; simpl.
  - split; [congruence|tauto].
  - destruct (dec k k0) as [->|Hk].
    + split; [auto|congruence].
    + rewrite IH. split; [auto|]. intros [H|H]; [congruence|exact H].
Qed.

Lemma dget_map_values {W : Type} (g : K -> V -> W) (d : dict K V) k :
  dget dec (map (fun e => (fst e, g (fst e) (snd e))) d) k
  = option_map (g k) (dget dec d k).
Proof.
  induction d as [|[k0 v0] d IH]; simpl; [reflexivity|].
  destruct (dec k k0) as [->|Hk]; [reflexivity|exact IH].
Qed.

End DictFacts.

(** ** Counting *)

Lemma fold_add_acc xs : forall a, fold_left Nat.add xs a = a + sum_nat xs.
Proof.
  unfold sum_nat. induction xs as [|x xs IH]; intros a; simpl; [lia|].
  rewrite (IH (a + x)), (IH x). lia.
Qed.

Lemma sum_nat_cons x xs : sum_nat (x :: xs) = x + sum_nat xs.
Proof. unfold sum_nat at 1. simpl. apply fold_add_acc. Qed.

Lemma sum_values_dset (d : counter) c v :
  sum_nat (values (dset ascii_dec d c v)) + dget_or ascii_dec d c 0
  = sum_nat (values d) + v.
Proof.
  unfold dget_or. induction d as [|[c0 v0] d IH]; simpl.
  - rewrite sum_nat_cons. unfold sum_nat; simpl. lia.
  - destruct (ascii_dec c c0) as [->|Hc]; simpl; rewrite !sum_nat_cons; [lia|].
    fold (values (dset ascii_dec d c v)). fold (values d). lia.
Qed.

Lemma dget_incr lm h c h' :
  dget str_eq_dec (incr lm h c) h'
  = if str_eq_dec h' h
    then Some (dset ascii_dec (dget_or str_eq_dec lm h []) c
                    (dget_or ascii_dec (dget_or str_eq_dec lm h []) c 0 + 1))
    else dget str_eq_dec lm h'.
Proof. unfold incr. apply dget_dset. Qed.

Lemma cnt_incr lm h c h' c' :
  cnt (incr lm h c) h' c'
  = cnt lm h' c' + (if pair_eq_dec (h, c) (h', c') then 1 else 0).
Proof.
  unfold cnt. unfold dget_or at 2. rewrite dget_incr.
  destruct (str_eq_dec h' h) as [->|Hh].
  - unfold dget_or at 1. rewrite dget_dset.
    destruct (ascii_dec c' c) as [->|Hc].
    + destruct (pair_eq_dec (h, c) (h, c)); [reflexivity|congruence].
    + destruct (pair_eq_dec (h, c) (h, c')); [congruence|].
      unfold dget_or. lia.
  - destruct (pair_eq_dec (h, c) (h', c')); [congruence|].
    unfold dget_or. lia.
Qed.

Lemma total_incr lm h c h' :
  total (incr lm h c) h' = total lm h' + (if str_eq_dec h h' then 1 else 0).
Proof.
  unfold total. unfold dget_or at 1. rewrite dget_incr.
  destruct (str_eq_dec h' h) as [->|Hh].
  - destruct (str_eq_dec h h); [|congruence].
    pose proof (sum_values_dset (dget_or str_eq_dec lm h []) c
                  (dget_or ascii_dec (dget_or str_eq_dec lm h []) c 0 + 1)).
    lia.
  - destruct (str_eq_dec h h'); [congruence|]. unfold dget_or. lia.
Qed.

Lemma In_dset {K V : Type} (dec : forall a b : K, {a = b} + {a <> b})
  (d : dict K V) k v e :
  In e (dset dec d k v) -> e = (k, v) \/ In e d.
Proof.
  induction d as [|[k0 v0] d IH]; simpl.
  - intros [H|[]]. left. congruence.
  - destruct (dec k k0) as [->|Hk]; simpl.
    + intros [H|H]; [left; congruence|right; right; exact H].
    + intros [H|H]; [right; left; exact H|].
      destruct (IH H); [left|right; right]; assumption.
Qed.

Lemma In_le_sum (d : counter) c k : In (c, k) d -> k <= sum_nat (values d).
Proof.
  induction d as [|[c0 v0] d IH]; simpl; [tauto|].
  rewrite sum_nat_cons. fold (values d).
  intros [H|H].
  - injection H as -> ->. lia.
  - apply IH in H. lia.
Qed.

Lemma positive_incr lm h c : positive_counts lm -> positive_counts (incr lm h c).
Proof.
  intros Hp h' chars c' k Hin Hc. unfold incr in Hin.
  apply In_dset in Hin. destruct Hin as [E|Hin]; [|exact (Hp _ _ _ _ Hin Hc)].
  injection E as -> ->.
  apply In_dset in Hc. destruct Hc as [E|Hc]; [injection E as -> ->; lia|].
  unfold dget_or in Hc at 1.
  destruct (dget str_eq_dec lm h) as [chars|] eqn:E; [|destruct Hc].
  apply dget_In in E. exact (Hp _ _ _ _ E Hc).
Qed.

Lemma cnt_count_pairs ps : forall lm h c,
  cnt (count_pairs ps lm) h c = cnt lm h c + count_occ pair_eq_dec ps (h, c).
Proof.
  unfold count_pairs.
  induction ps as [|[h0 c0] ps IH]; intros lm h c;
    cbn [fold_left count_occ fst snd]; [lia|].
  rewrite IH, cnt_incr.
  destruct (pair_eq_dec (h0, c0) (h, c)); lia.
Qed.

Lemma total_count_pairs ps : forall lm h,
  total (count_pairs ps lm) h
  = total lm h + count_occ str_eq_dec (map fst ps) h.
Proof.
  unfold count_pairs.
  induction ps as [|[h0 c0] ps IH]; intros lm h;
    cbn [fold_left count_occ fst snd map]; [lia|].
  rewrite IH, total_incr.
  destruct (str_eq_dec h0 h); lia.
Qed.

Lemma positive_count_pairs ps : forall lm,
  positive_counts lm -> positive_counts (count_pairs ps lm).
Proof.
  unfold count_pairs.
  induction ps as [|[h0 c0] ps IH]; intros lm Hp; simpl; [exact Hp|].
  apply IH, positive_incr, Hp.
Qed.

Lemma keys_count_pairs ps : forall lm h,
  dget str_eq_dec (count_pairs ps lm) h <> None
  <-> dget str_eq_dec lm h <> None \/ In h (map fst ps).
Proof.
  unfold count_pairs.
  induction ps as [|[h0 c0] ps IH]; intros lm h; simpl; [tauto|].
  rewrite IH, dget_incr.
  destruct (str_eq_dec h h0) as [->|Hh].
  - split; [auto|]. intros _. left. discriminate.
  - split; [intros [H|H]; auto|]. intros [H|[H|H]]; auto; congruence.
Qed.

Lemma positive_empty : positive_counts [].
Proof. intros h chars c k []. Qed.

(** The stored counts are the window counts of the specification. *)

Lemma count_occ_map_filter {A B : Type} (dec : forall a b : B, {a = b} + {a <> b})
  (g : A -> B) (x : B) (l : list A) :
  count_occ dec (map g l) x
  = length (filter (fun i => if dec (g i) x then true else false) l).
Proof.
  induction l as [|a l IH]; simpl; [reflexivity|].
  destruct (dec (g a) x); simpl; rewrite IH; reflexivity.
Qed.

Lemma occ_pairs data n h c :
  occ data n h c = count_occ pair_eq_dec (pairs data n) (h, c).
Proof.
  unfold occ, pairs. rewrite count_occ_map_filter.
  f_equal. apply filter_ext_in. intros i Hi.
  apply in_seq in Hi. unfold pair_at, hist_at.
  assert (Hn : nth_error data (i + n) = Some (nth (i + n) data pad_char))
    by (apply nth_error_nth'; lia).
  rewrite Hn.
  destruct (pair_eq_dec _ _) as [E|E].
  - injection E as -> ->.
    destruct (str_eq_dec _ _); [|congruence].
    destruct (ascii_dec _ _); [reflexivity|congruence].
  - destruct (str_eq_dec _ _) as [E1|]; [|reflexivity].
    destruct (ascii_dec _ _) as [E2|]; [|reflexivity].
    exfalso. apply E. congruence.
Qed.

Lemma occ_hist_pairs data n h :
  occ_hist data n h = count_occ str_eq_dec (map fst (pairs data n)) h.
Proof.
  unfold occ_hist, pairs. rewrite map_map. simpl.
  rewrite count_occ_map_filter. reflexivity.
Qed.

Lemma occ_le_hist data n h c : occ data n h c <= occ_hist data n h.
Proof.
  unfold occ, occ_hist.
  induction (range (length data - n)) as [|i l IH]; simpl; [lia|].
  unfold pair_at at 1.
  destruct (hist_at data n h i); simpl; [|exact IH].
  destruct (match nth_error data (i + n) with Some _ => _ | None => _ end);
    simpl; lia.
Qed.

(** ** Training *)

Lemma normalize_positive (cntr : counter) :
  (forall c k, In (c, k) cntr -> 0 < k) ->
  normalize cntr = Ok (normalize_pure cntr).
Proof.
  intros Hp. unfold normalize, normalize_pure.
  apply mapM_pure. intros [c k] Hin. unfold int_div.
  pose proof (Hp _ _ Hin). pose proof (In_le_sum _ _ _ Hin).
  destruct (Nat.eqb_spec (sum_nat (values cntr)) 0); [lia|reflexivity].
Qed.

(** [train_char_lm] never raises: its result is the normalised count table. *)
Lemma train_char_lm_pure texts n :
  train_char_lm texts n
  = Ok (map (fun e => (fst e, normalize_pure (snd e)))
            (count_pairs (pairs (padded texts n) n) [])).
Proof.
  unfold train_char_lm. rewrite count_loop_pairs. simpl.
  apply mapM_pure. intros [hist chars] Hin.
  rewrite normalize_positive; [reflexivity|].
  intros c k Hc.
  exact (positive_count_pairs _ positive_empty _ _ _ _ Hin Hc).
Qed.

Lemma cnt_train data n h c :
  cnt (count_pairs (pairs data n) []) h c = occ data n h c.
Proof. rewrite cnt_count_pairs, occ_pairs. reflexivity. Qed.

Lemma total_train data n h :
  total (count_pairs (pairs data n) []) h = occ_hist data n h.
Proof. rewrite total_count_pairs, occ_hist_pairs. reflexivity. Qed.

Lemma dget_normalize_pure chars c :
  dget ascii_dec (normalize_pure chars) c
  = option_map (fun k => (nat2Q k / nat2Q (sum_nat (values chars)))%Q)
               (dget ascii_dec chars c).
Proof.
  unfold normalize_pure.
  apply (dget_map_values ascii_dec
           (fun _ k => (nat2Q k / nat2Q (sum_nat (values chars)))%Q)).
Qed.

Lemma lookup_train data n h c :
  lookup (map (fun e => (fst e, normalize_pure (snd e)))
              (count_pairs (pairs data n) [])) h c
  = if occ data n h c =? 0 then None
    else Some (nat2Q (occ data n h c) / nat2Q (occ_hist data n h))%Q.
Proof.
  unfold lookup.
  rewrite (dget_map_values str_eq_dec (fun _ v => normalize_pure v)).
  rewrite <- cnt_train, <- total_train. unfold cnt, total, dget_or.
  set (lm := count_pairs (pairs data n) []).
  assert (Hp : positive_counts lm)
    by (apply positive_count_pairs, positive_empty).
  destruct (dget str_eq_dec lm h) as [chars|] eqn:Eh; simpl; [|reflexivity].
  rewrite dget_normalize_pure.
  destruct (dget ascii_dec chars c) as [k|] eqn:Ec; simpl; [|reflexivity].
  apply dget_In in Eh, Ec. pose proof (Hp _ _ _ _ Eh Ec).
  destruct (Nat.eqb_spec k 0); [lia|reflexivity].
Qed.

(** C1. Training on documents [texts] with order [n] never raises, and the
    model has an entry for history [h] and character [c] exactly when
    [(h, c)] occurs as [(S[i:i+n], S[i+n])] at some position [i] of the padded
    stream [S] with [0 <= i <= len(S)-n-1]; the entry is the number of such
    occurrences divided by the number of occurrences of [h], with nothing
    added. *)
Theorem train_entries_are_count_ratios (texts : list str) (n : nat) :
  exists lm,
    train_char_lm texts n = Ok lm /\
    forall h c,
      lookup lm h c
      = if occ (padded texts n) n h c =? 0 then None
        else Some (nat2Q (occ (padded texts n) n h c)
                   / nat2Q (occ_hist (padded texts n) n h))%Q.
Proof.
  eexists. split; [apply train_char_lm_pure|].
  intros h c. apply lookup_train.
Qed.

(** ** Distributions *)

Lemma fold_Qplus_acc xs : forall a, (fold_left Qplus xs a == a + sum_Q xs)%Q.
Proof.
  unfold sum_Q. induction xs as [|x xs IH]; intros a; simpl.
  - ring.
  - rewrite (IH (a + x)%Q), (IH (0 + x)%Q). ring.
Qed.

Lemma sum_Q_cons x xs : (sum_Q (x :: xs) == x + sum_Q xs)%Q.
Proof. unfold sum_Q at 1. simpl. rewrite fold_Qplus_acc. ring. Qed.

Lemma nat2Q_plus a b : (nat2Q (a + b) == nat2Q a + nat2Q b)%Q.
Proof. unfold nat2Q. rewrite Nat2Z.inj_add, inject_Z_plus. reflexivity. Qed.

Lemma nat2Q_pos k : 0 < k -> (0 < nat2Q k)%Q.
Proof.
  intros H. unfold nat2Q. replace 0%Q with (inject_Z 0) by reflexivity.
  rewrite <- Zlt_Qlt. lia.
Qed.

Lemma sum_Q_scaled (s : nat) (d : counter) :
  (sum_Q (values (map (fun e => (fst e, (nat2Q (snd e) / nat2Q s)%Q)) d))
   == nat2Q (sum_nat (values d)) / nat2Q s)%Q.
Proof.
  induction d as [|[c k] d IH]; simpl.
  - unfold sum_Q, sum_nat, nat2Q. simpl. unfold Qdiv. ring.
  - rewrite sum_Q_cons, sum_nat_cons, nat2Q_plus.
    fold (values (map (fun e => (fst e, (nat2Q (snd e) / nat2Q s)%Q)) d)).
    fold (values d). rewrite IH. unfold Qdiv. ring.
Qed.

Lemma sum_normalize_pure (chars : counter) :
  0 < sum_nat (values chars) ->
  (sum_Q (values (normalize_pure chars)) == 1)%Q.
Proof.
  intros Hs. unfold normalize_pure. rewrite sum_Q_scaled.
  apply nat2Q_pos in Hs. field. intros E. rewrite E in Hs.
  exact (Qlt_irrefl _ Hs).
Qed.

Lemma In_normalize_pure chars c p :
  In (c, p) (normalize_pure chars) ->
  exists k, In (c, k) chars
            /\ p = (nat2Q k / nat2Q (sum_nat (values chars)))%Q.
Proof.
  unfold normalize_pure. intros H. apply in_map_iff in H.
  destruct H as [[c' k] [E H]]. simpl in E. injection E as -> <-.
  exists k. split; [exact H|reflexivity].
Qed.

Lemma count_occ_pos_In {A : Type} (dec : forall a b : A, {a = b} + {a <> b})
  (l : list A) x : In x l -> 0 < count_occ dec l x.
Proof. intros H. apply (count_occ_In dec) in H. lia. Qed.

Lemma present_total_pos ps h :
  dget str_eq_dec (count_pairs ps []) h <> None ->
  0 < total (count_pairs ps []) h.
Proof.
  intros H. apply keys_count_pairs in H. destruct H as [H|H]; [simpl in H; congruence|].
  rewrite total_count_pairs. apply (count_occ_pos_In str_eq_dec) in H.
  change (total [] h) with 0. lia.
Qed.

(** What a successful training call returned for a present history. *)
Lemma trained_distribution texts n lm h dist :
  train_char_lm texts n = Ok lm ->
  dget str_eq_dec lm h = Some dist ->
  exists chars,
    dget str_eq_dec (count_pairs (pairs (padded texts n) n) []) h = Some chars
    /\ dist = normalize_pure chars
    /\ 0 < sum_nat (values chars)
    /\ sum_nat (values chars) = occ_hist (padded texts n) n h.
Proof.
  rewrite train_char_lm_pure. intros [= <-].
  rewrite (dget_map_values str_eq_dec (fun _ v => normalize_pure v)).
  destruct (dget str_eq_dec _ h) as [chars|] eqn:E; simpl; [|discriminate].
  intros [= <-]. exists chars. split; [reflexivity|]. split; [reflexivity|].
  assert (Ht : total (count_pairs (pairs (padded texts n) n) []) h
               = sum_nat (values chars))
    by (unfold total, dget_or; rewrite E; reflexivity).
  split.
  - rewrite <- Ht. apply present_total_pos. congruence.
  - rewrite <- Ht. apply total_train.
Qed.

(** C5. In a trained model the values of every history's distribution sum
    to 1 (exactly, in the rational idealisation of the float quotients, so
    within the relative tolerance 1e-9), every entry is nonzero and belongs
    to a character observed after that history in the training stream, and a
    character never observed after it has no entry. *)
Theorem distribution_sums_to_one (texts : list str) (n : nat) (lm : model)
  (h : str) (dist : distribution) :
  train_char_lm texts n = Ok lm ->
  dget str_eq_dec lm h = Some dist ->
  (sum_Q (values dist) == 1)%Q
  /\ (Qabs (sum_Q (values dist) - 1) <= (1 # 1000000000) * 1)%Q
  /\ (forall c p, In (c, p) dist ->
        (0 < p)%Q /\ 0 < occ (padded texts n) n h c)
  /\ (forall c, occ (padded texts n) n h c = 0 ->
        dget ascii_dec dist c = None).
Proof.
  intros Ht Hd.
  destruct (trained_distribution _ _ _ Ht Hd) as (chars & Hc & -> & Hs & Hocc).
  pose proof (sum_normalize_pure _ Hs) as H1.
  assert (Hp : positive_counts (count_pairs (pairs (padded texts n) n) []))
    by (apply positive_count_pairs, positive_empty).
  split; [exact H1|]. split; [rewrite H1; vm_compute; discriminate|]. split.
  - intros c p Hin. apply In_normalize_pure in Hin.
    destruct Hin as (k & Hk & ->).
    pose proof (Hp _ _ _ _ (dget_In _ _ _ Hc) Hk) as Hk0.
    split.
    + apply Qlt_shift_div_l; [apply nat2Q_pos, Hs|].
      rewrite Qmult_0_l. apply nat2Q_pos, Hk0.
    + rewrite <- cnt_train. unfold cnt, dget_or. rewrite Hc.
      destruct (dget ascii_dec chars c) as [k'|] eqn:E.
      * exact (Hp _ _ _ _ (dget_In _ _ _ Hc) (dget_In _ _ _ E)).
      * exfalso. apply (proj2 (dget_keys ascii_dec chars c)); [|exact E].
        unfold keys. apply in_map_iff. exists (c, k). split; [reflexivity|exact Hk].
  - intros c Hz. rewrite dget_normalize_pure.
    rewrite <- cnt_train in Hz. unfold cnt, dget_or in Hz. rewrite Hc in Hz.
    destruct (dget ascii_dec chars c) as [k'|] eqn:E; [|reflexivity].
    pose proof (Hp _ _ _ _ (dget_In _ _ _ Hc) (dget_In _ _ _ E)). lia.
Qed.

(** ** The start of generation *)

Lemma padded_cons t ts n : padded (t :: ts) n = (pad n ++ t) ++ padded ts n.
Proof. reflexivity. Qed.

Lemma length_pad n : length (pad n) = n.
Proof. apply repeat_length. Qed.

Lemma firstn_pad_app n rest : firstn n (pad n ++ rest) = pad n.
Proof.
  rewrite firstn_app, length_pad, Nat.sub_diag. simpl.
  rewrite firstn_all2 by (rewrite length_pad; lia). apply app_nil_r.
Qed.

(** A non-empty stream starts with the pad. *)
Lemma padded_starts_with_pad texts n :
  texts <> [] -> firstn n (padded texts n) = pad n /\ n <= length (padded texts n).
Proof.
  destruct texts as [|t ts]; [congruence|]. intros _.
  rewrite padded_cons, <- app_assoc. split; [apply firstn_pad_app|].
  rewrite length_app, length_pad. lia.
Qed.

Lemma last_n_pad n : last_n (pad n) n = pad n.
Proof.
  unfold last_n. destruct (n =? 0); [reflexivity|].
  rewrite length_pad, Nat.sub_diag. reflexivity.
Qed.

Lemma first_history_in_pairs data n :
  n < length data -> In (firstn n data) (map fst (pairs data n)).
Proof.
  intros H. unfold pairs. rewrite map_map. simpl.
  apply in_map_iff. exists 0. split.
  - unfold slice. simpl. rewrite Nat.sub_0_r. reflexivity.
  - apply in_seq. lia.
Qed.

Lemma pairs_short data n : length data <= n -> pairs data n = [].
Proof.
  intros H. unfold pairs. replace (length data - n) with 0 by lia. reflexivity.
Qed.

Lemma keys_map_values {K V W : Type} (g : K * V -> W) (d : dict K V) :
  keys (map (fun e => (fst e, g e)) d) = keys d.
Proof. unfold keys. rewrite map_map. reflexivity. Qed.

(** The trained model is empty exactly when the stream is no longer than [n]. *)
Lemma trained_empty_iff texts n lm :
  train_char_lm texts n = Ok lm ->
  (lm = [] <-> length (padded texts n) <= n).
Proof.
  rewrite train_char_lm_pure. intros [= <-]. split.
  - intros E. destruct (le_lt_dec (length (padded texts n)) n) as [|Hlt]; [assumption|].
    exfalso. apply first_history_in_pairs in Hlt.
    assert (Hk : dget str_eq_dec (count_pairs (pairs (padded texts n) n) [])
                   (firstn n (padded texts n)) <> None)
      by (apply keys_count_pairs; right; exact Hlt).
    apply map_eq_nil in E. rewrite E in Hk. apply Hk. reflexivity.
  - intros H. rewrite pairs_short by exact H. reflexivity.
Qed.

(** C10. If the model trained on [texts] with order [n] is non-empty, which
    is the case exactly when the padded training stream is longer than [n],
    then the all-pad history is one of its keys, and the first lookup of the
    generator, [lm[('~' * n)[-n:]]], succeeds. *)
Theorem pad_history_present (texts : list str) (n : nat) (lm : model) :
  train_char_lm texts n = Ok lm ->
  (lm <> [] <-> n < length (padded texts n))
  /\ (lm <> [] ->
      In (pad n) (keys lm)
      /\ exists dist,
           dget str_eq_dec lm (pad n) = Some dist
           /\ forall x, generate_letter lm (pad n) n x = Ok (walk dist x)).
Proof.
  intros Ht. pose proof (trained_empty_iff _ _ Ht) as He.
  assert (Hiff : lm <> [] <-> n < length (padded texts n)).
  { split; intros H.
    - destruct (le_lt_dec (length (padded texts n)) n) as [Hle|]; [|assumption].
      exfalso. apply H, He, Hle.
    - intros E. apply He in E. lia. }
  split; [exact Hiff|]. intros Hne. apply Hiff in Hne.
  assert (Htexts : texts <> []) by (intros ->; simpl in Hne; lia).
  destruct (padded_starts_with_pad n Htexts) as [Hpad _].
  pose proof (first_history_in_pairs _ Hne) as Hin. rewrite Hpad in Hin.
  assert (Hk : dget str_eq_dec lm (pad n) <> None).
  { rewrite train_char_lm_pure in Ht. injection Ht as <-.
    rewrite (dget_map_values str_eq_dec (fun _ v => normalize_pure v)).
    destruct (dget str_eq_dec _ (pad n)) eqn:E; [discriminate|].
    exfalso. revert E. apply keys_count_pairs. right. exact Hin. }
  split; [apply (dget_keys str_eq_dec), Hk|].
  destruct (dget str_eq_dec lm (pad n)) as [dist|] eqn:E; [|congruence].
  exists dist. split; [reflexivity|]. intros x.
  unfold generate_letter, getitem. rewrite last_n_pad, E. reflexivity.
Qed.

(** ** A history the model does not know *)

Lemma foldM_app {A S : Type} (body : S -> A -> result S) xs ys :
  forall st, foldM body (xs ++ ys) st = bind (foldM body xs st) (foldM body ys).
Proof.
  induction xs as [|x xs IH]; intros st; simpl; [reflexivity|].
  destruct (body st x) as [st'|e]; simpl; [apply IH|reflexivity].
Qed.

Lemma range_split k L : k < L -> range L = range k ++ k :: seq (S k) (L - S k).
Proof.
  intros H. unfold range.
  replace L with (k + S (L - S k)) at 1 by lia.
  rewrite seq_app. reflexivity.
Qed.

(** C7. If, after [k < L] successful steps, the current [n]-character history
    is not a key of the model, then [generate_text] does not return: the
    lookup [lm[history]] raises [KeyError] for that history. *)
Theorem generate_unknown_history_raises (lm : model) (n L : nat)
  (rng : nat -> Q) (k : nat) (history out : str) :
  k < L ->
  generate_loop lm n rng k = Ok (history, out) ->
  dget str_eq_dec lm (last_n history n) = None ->
  generate_text lm n L rng = Raise (KeyError (last_n history n)).
Proof.
  intros Hk Hloop Hnone. unfold generate_text, generate_loop in *.
  rewrite (range_split Hk), foldM_app, Hloop. simpl.
  unfold generate_letter, getitem. rewrite Hnone. reflexivity.
Qed.

(** ** Empty inputs and order 0 *)

Lemma perplexity_empty_corpus lm n : perplexity lm [] n = Raise ZeroDivisionError.
Proof. reflexivity. Qed.

(** C4, as the code has it.  [train_char_lm] never raises: for every
    document list and every order, 0 included, it returns a model, and the
    model is empty exactly when the padded stream is no longer than [n], as
    for [train([], n)].  [perplexity(model, [], n)] does fail: the division by
    the stream length 0 raises [ZeroDivisionError]. *)
Theorem empty_input_boundary :
  (forall texts n, exists lm,
      train_char_lm texts n = Ok lm
      /\ (lm = [] <-> length (padded texts n) <= n))
  /\ (forall n, train_char_lm [] n = Ok [])
  /\ (forall texts, exists lm, train_char_lm texts 0 = Ok lm)
  /\ (forall lm n, perplexity lm [] n = Raise ZeroDivisionError).
Proof.
  split; [|split; [|split]].
  - intros texts n. eexists. split; [apply train_char_lm_pure|].
    apply trained_empty_iff, train_char_lm_pure.
  - intros n. rewrite train_char_lm_pure. rewrite pairs_short by (simpl; lia).
    reflexivity.
  - intros texts. eexists. apply train_char_lm_pure.
  - apply perplexity_empty_corpus.
Qed.

(** C4 as stated fails: training on no document, and training with order 0,
    both return a model. *)
Lemma train_empty_and_order0_return :
  train_char_lm [] 1 = Ok []
  /\ train_char_lm [lit "ab"] 0
     = Ok [([], [("a"%char, (1 # 2)%Q); ("b"%char, (1 # 2)%Q)])].
Proof. split; reflexivity. Qed.

(** ** Document order *)

(** The window of [n + 1] characters at position [i]. *)
Lemma slice_window data n i :
  slice data i (i + n) = firstn n (firstn (S n) (skipn i data)).
Proof.
  unfold slice. replace (i + n - i) with n by lia.
  rewrite firstn_firstn. f_equal. lia.
Qed.

Lemma nth_window (data : str) n i (d : ascii) :
  nth (i + n) data d = nth n (firstn (S n) (skipn i data)) d.
Proof.
  rewrite nth_firstn. destruct (Nat.ltb_spec n (S n)); [|lia].
  rewrite nth_skipn. reflexivity.
Qed.

Lemma firstn_app_clip {A : Type} n (X B : list A) :
  firstn n (X ++ B) = firstn n (X ++ firstn n B).
Proof.
  rewrite !firstn_app, firstn_firstn. do 2 f_equal. lia.
Qed.

Lemma window_app_left n i (A B : str) :
  i < length A ->
  firstn (S n) (skipn i (A ++ B)) = firstn (S n) (skipn i (A ++ firstn n B)).
Proof.
  intros Hi. rewrite !skipn_app.
  replace (i - length A) with 0 by lia. simpl skipn.
  destruct (skipn i A) as [|x X] eqn:E.
  - exfalso. assert (Hl : length (skipn i A) = 0) by (rewrite E; reflexivity).
    rewrite length_skipn in Hl. lia.
  - simpl. f_equal. apply firstn_app_clip.
Qed.

Lemma skipn_app_right {A : Type} j (X B : list A) :
  skipn (length X + j) (X ++ B) = skipn j B.
Proof.
  rewrite skipn_app. rewrite skipn_all2 by lia.
  replace (length X + j - length X) with j by lia. reflexivity.
Qed.

Lemma seq_offset a m : seq a m = map (fun j => a + j) (seq 0 m).
Proof.
  revert a. induction m as [|m IH]; intros a; simpl; [reflexivity|].
  f_equal; [lia|]. rewrite (IH (S a)), (IH 1), map_map.
  apply map_ext. intros j. lia.
Qed.

(** Windows that start in [A] see at most [n] characters of what follows;
    the others are windows of what follows. *)
Lemma pairs_app (A B : str) n :
  n <= length B ->
  pairs (A ++ B) n = pairs (A ++ firstn n B) n ++ pairs B n.
Proof.
  intros Hn. unfold pairs, range.
  rewrite !length_app, length_firstn.
  replace (length A + length B - n) with (length A + (length B - n)) by lia.
  replace (length A + Nat.min n (length B) - n) with (length A) by lia.
  rewrite seq_app, map_app. f_equal.
  - apply map_ext_in. intros i Hi. apply in_seq in Hi.
    rewrite !slice_window, !nth_window.
    rewrite (window_app_left n A B) by lia. reflexivity.
  - simpl. rewrite seq_offset, map_map.
    apply map_ext. intros j.
    rewrite !slice_window, !nth_window, skipn_app_right. reflexivity.
Qed.

Lemma pairs_padded_cons t ts n :
  ts <> [] ->
  pairs (padded (t :: ts) n) n
  = pairs ((pad n ++ t) ++ pad n) n ++ pairs (padded ts n) n.
Proof.
  intros Hts. destruct (padded_starts_with_pad n Hts) as [Hpad Hlen].
  rewrite padded_cons, pairs_app by exact Hlen. rewrite Hpad. reflexivity.
Qed.

Lemma pairs_padded_snoc ds d n :
  pairs (padded (ds ++ [d]) n) n
  = concat (map (block_pairs n) ds) ++ pairs (padded [d] n) n.
Proof.
  induction ds as [|t ds IH]; [reflexivity|].
  change ((t :: ds) ++ [d]) with (t :: (ds ++ [d])).
  rewrite pairs_padded_cons by (destruct ds; discriminate).
  rewrite IH. cbn [map concat]. apply app_assoc.
Qed.

Lemma Permutation_concat_map {A B : Type} (f : A -> list B) l l' :
  Permutation l l' -> Permutation (concat (map f l)) (concat (map f l')).
Proof.
  induction 1 as [|x l l' _ IH|x y l|l l' l'' _ IH1 _ IH2]; simpl.
  - constructor.
  - apply Permutation_app_head, IH.
  - rewrite !app_assoc. apply Permutation_app_tail, Permutation_app_comm.
  - exact (Permutation_trans IH1 IH2).
Qed.

Lemma pairs_permutation ds ds' d n :
  Permutation ds ds' ->
  Permutation (pairs (padded (ds ++ [d]) n) n) (pairs (padded (ds' ++ [d]) n) n).
Proof.
  intros H. rewrite !pairs_padded_snoc.
  apply Permutation_app_tail, Permutation_concat_map, H.
Qed.

(** C3, as the code has it.  Two document sequences that are permutations
    of each other and end with the same document give the same count for
    every (history, character) pair and every history, and so the same model
    entries.  (The last document is the only one not followed by a pad.) *)
Theorem train_permutation_same_last (n : nat) (ds ds' : list str) (d : str) :
  Permutation ds ds' ->
  (forall h c, occ (padded (ds ++ [d]) n) n h c
               = occ (padded (ds' ++ [d]) n) n h c)
  /\ (forall h, occ_hist (padded (ds ++ [d]) n) n h
                = occ_hist (padded (ds' ++ [d]) n) n h)
  /\ exists lm lm',
       train_char_lm (ds ++ [d]) n = Ok lm
       /\ train_char_lm (ds' ++ [d]) n = Ok lm'
       /\ forall h c, lookup lm h c = lookup lm' h c.
Proof.
  intros HP. pose proof (pairs_permutation d n HP) as Hpairs.
  assert (Hocc : forall h c, occ (padded (ds ++ [d]) n) n h c
                             = occ (padded (ds' ++ [d]) n) n h c).
  { intros h c. rewrite !occ_pairs.
    apply (Permutation_count_occ pair_eq_dec). exact Hpairs. }
  assert (Hhist : forall h, occ_hist (padded (ds ++ [d]) n) n h
                            = occ_hist (padded (ds' ++ [d]) n) n h).
  { intros h. rewrite !occ_hist_pairs.
    apply (Permutation_count_occ str_eq_dec). apply Permutation_map, Hpairs. }
  split; [exact Hocc|]. split; [exact Hhist|].
  do 2 eexists. split; [apply train_char_lm_pure|].
  split; [apply train_char_lm_pure|].
  intros h c. rewrite !lookup_train, Hocc, Hhist. reflexivity.
Qed.

(** C3 as stated fails: swapping two documents changes the model. *)
Lemma train_depends_on_last_document :
  Permutation [lit "a"; lit "b"] [lit "b"; lit "a"]
  /\ occ (padded [lit "a"; lit "b"] 1) 1 (lit "a") "~" = 1
  /\ occ (padded [lit "b"; lit "a"] 1) 1 (lit "a") "~" = 0
  /\ exists lm lm',
       train_char_lm [lit "a"; lit "b"] 1 = Ok lm
       /\ train_char_lm [lit "b"; lit "a"] 1 = Ok lm'
       /\ lookup lm (lit "a") "~" = Some 1%Q
       /\ lookup lm' (lit "a") "~" = None.
Proof.
  split; [apply perm_swap|]. split; [reflexivity|]. split; [reflexivity|].
  do 2 eexists. repeat split.
Qed.

(** ** Trained models are probability tables *)

Lemma nat2Q_le a b : a <= b -> (nat2Q a <= nat2Q b)%Q.
Proof. intros H. unfold nat2Q. rewrite <- Zle_Qle. lia. Qed.

Lemma ratio_is_probability k s :
  0 < k -> k <= s -> (0 < nat2Q k / nat2Q s /\ nat2Q k / nat2Q s <= 1)%Q.
Proof.
  intros Hk Hs.
  assert (H0 : (0 < nat2Q s)%Q) by (apply nat2Q_pos; lia).
  split.
  - apply Qlt_shift_div_l; [exact H0|]. rewrite Qmult_0_l. apply nat2Q_pos, Hk.
  - apply Qle_shift_div_r; [exact H0|]. rewrite Qmult_1_l. apply nat2Q_le, Hs.
Qed.

Lemma trained_valid texts n lm : train_char_lm texts n = Ok lm -> valid_model lm.
Proof.
  rewrite train_char_lm_pure. intros [= <-] h dist c p Hin Hc.
  apply in_map_iff in Hin. destruct Hin as [[h' chars] [E Hin]].
  simpl in E. injection E as -> <-.
  apply In_normalize_pure in Hc. destruct Hc as (k & Hk & ->).
  apply ratio_is_probability.
  - exact (positive_count_pairs _ positive_empty _ _ _ _ Hin Hk).
  - exact (In_le_sum _ _ _ Hk).
Qed.

(** ** The scan of [perplexity] *)

Lemma keys_dset_In {K V : Type} (dec : forall a b : K, {a = b} + {a <> b})
  (d : dict K V) k v k' :
  In k' (keys (dset dec d k v)) <-> k' = k \/ In k' (keys d).
Proof.
  rewrite <- !(dget_keys dec), dget_dset.
  destruct (dec k' k) as [->|Hk].
  - split; [auto|discriminate].
  - split; [auto|]. intros [H|H]; [congruence|exact H].
Qed.

Lemma keys_dset_NoDup {K V : Type} (dec : forall a b : K, {a = b} + {a <> b})
  (d : dict K V) k v :
  NoDup (keys d) -> NoDup (keys (dset dec d k v)).
Proof.
  induction d as [|[k0 v0] d IH]; simpl; intros Hnd.
  - constructor; [intros []|constructor].
  - destruct (dec k k0) as [->|Hk]; simpl; [exact Hnd|].
    inversion Hnd as [|? ? Hnotin Hnd']; subst.
    constructor; [|apply IH, Hnd'].
    fold (keys (dset dec d k v)). rewrite keys_dset_In.
    intros [E|H]; [congruence|]. apply Hnotin, H.
Qed.

Lemma Q2R_zero : Q2R 0 = 0%R.
Proof. unfold Q2R. cbn [Qnum Qden]. lra. Qed.

Lemma Q2R_one : Q2R 1 = 1%R.
Proof. unfold Q2R. cbn [Qnum Qden]. lra. Qed.

Lemma math_log_pos (p : Q) : (0 < p)%Q -> math_log (Q2R p) = Ok (ln (Q2R p)).
Proof.
  intros Hp. unfold math_log. apply Qlt_Rlt in Hp. rewrite Q2R_zero in Hp.
  destruct (Rlt_dec 0 (Q2R p)); [reflexivity|contradiction].
Qed.

Section Scan.
Variables (lm : model) (data : str) (n : nat).
Hypothesis Hvalid : valid_model lm.

Lemma score_step_known i a u dist p :
  i + n < length data ->
  dget str_eq_dec lm (slice data i (i + n)) = Some dist ->
  dget ascii_dec dist (nth (i + n) data pad_char) = Some p ->
  score_step lm data n (a, u) i = Ok ((a + ln (Q2R p))%R, u).
Proof.
  intros Hi Hd Hc. unfold score_step. rewrite index_lt by exact Hi. simpl.
  rewrite Hd, Hc.
  rewrite math_log_pos; [reflexivity|].
  exact (proj1 (Hvalid _ _ _ _ (dget_In _ _ _ Hd) (dget_In _ _ _ Hc))).
Qed.

Lemma score_step_unknown i a u dist :
  i + n < length data ->
  dget str_eq_dec lm (slice data i (i + n)) = Some dist ->
  dget ascii_dec dist (nth (i + n) data pad_char) = None ->
  score_step lm data n (a, u) i
  = Ok (a, dset str_eq_dec u (slice data i (i + n))
                (dget_or str_eq_dec u (slice data i (i + n)) 0 + 1)).
Proof.
  intros Hi Hd Hc. unfold score_step. rewrite index_lt by exact Hi. simpl.
  rewrite Hd, Hc. reflexivity.
Qed.

Lemma score_step_absent i a u :
  i + n < length data ->
  dget str_eq_dec lm (slice data i (i + n)) = None ->
  score_step lm data n (a, u) i = Ok (a, u).
Proof.
  intros Hi Hd. unfold score_step. rewrite index_lt by exact Hi. simpl.
  rewrite Hd. reflexivity.
Qed.

Lemma scan_result l :
  (forall i, In i l -> i + n < length data) ->
  forall a u, NoDup (keys u) ->
  exists u',
    foldM (score_step lm data n) l (a, u)
    = Ok ((a + sum_R (map (position_term lm data n)
                          (filter (known_at lm data n) l)))%R, u')
    /\ NoDup (keys u')
    /\ forall h, In h (keys u') <-> In h (keys u) \/ unknown_among lm data n l h.
Proof.
  induction l as [|i l IH]; intros Hl a u Hnd.
  - exists u. simpl. split; [f_equal; f_equal; lra|]. split; [exact Hnd|].
    intros h. split; [auto|]. intros [H|(i & [] & _)]. exact H.
  - assert (Hi : i + n < length data) by (apply Hl; left; reflexivity).
    assert (Hl' : forall j, In j l -> j + n < length data)
      by (intros j Hj; apply Hl; right; exact Hj).
    cbn [foldM filter]. unfold known_at at 1, unknown_among.
    destruct (dget str_eq_dec lm (slice data i (i + n))) as [dist|] eqn:Ed.
    + destruct (dget ascii_dec dist (nth (i + n) data pad_char)) as [p|] eqn:Ec.
      * rewrite (@score_step_known i a u dist p Hi Ed Ec). simpl bind.
        destruct (IH Hl' (a + ln (Q2R p))%R u Hnd) as (u' & Hf & Hnd' & Hk).
        exists u'. split; [|split; [exact Hnd'|]].
        -- rewrite Hf. cbn [map sum_R fold_right]. unfold position_term at 2, lookup.
           rewrite Ed, Ec. f_equal. f_equal. unfold sum_R. lra.
        -- intros h. rewrite Hk. split; intros [H|(j & Hj & Hu & Hh)]; auto.
           ++ right. exists j. split; [right; exact Hj|auto].
           ++ destruct Hj as [<-|Hj].
              ** unfold unknown_at in Hu. rewrite Ed, Ec in Hu. discriminate.
              ** right. exists j. auto.
      * rewrite (@score_step_unknown i a u dist Hi Ed Ec). simpl bind.
        set (u1 := dset str_eq_dec u (slice data i (i + n))
                        (dget_or str_eq_dec u (slice data i (i + n)) 0 + 1)).
        destruct (IH Hl' a u1 (keys_dset_NoDup _ _ _ _ Hnd))
          as (u' & Hf & Hnd' & Hk).
        exists u'. split; [|split; [exact Hnd'|]].
        -- rewrite Hf. cbn [map sum_R fold_right]. unfold position_term at 2, lookup.
           rewrite Ed, Ec. f_equal. f_equal. unfold sum_R. lra.
        -- intros h. rewrite Hk. unfold u1. rewrite keys_dset_In.
           split.
           ++ intros [[->|H]|(j & Hj & Hu & Hh)]; auto.
              ** right. exists i. split; [left; reflexivity|].
                 split; [|reflexivity]. unfold unknown_at. rewrite Ed, Ec. reflexivity.
              ** right. exists j. split; [right; exact Hj|auto].
           ++ intros [H|(j & [<-|Hj] & Hu & Hh)]; auto.
              right. exists j. auto.
    + rewrite (@score_step_absent i a u Hi Ed). simpl bind.
      destruct (IH Hl' a u Hnd) as (u' & Hf & Hnd' & Hk).
      exists u'. split; [exact Hf|]. split; [exact Hnd'|].
      intros h. rewrite Hk. split; intros [H|(j & Hj & Hu & Hh)]; auto.
      * right. exists j. split; [right; exact Hj|auto].
      * destruct Hj as [<-|Hj].
        -- unfold unknown_at in Hu. rewrite Ed in Hu. discriminate.
        -- right. exists j. auto.
Qed.

End Scan.

(** ** The correction for unknown outcomes *)

Lemma sum_Q_nonneg xs : (forall x, In x xs -> (0 <= x)%Q) -> (0 <= sum_Q xs)%Q.
Proof.
  induction xs as [|x xs IH]; intros H.
  - unfold sum_Q. simpl. apply Qle_refl.
  - rewrite sum_Q_cons. rewrite <- (Qplus_0_r 0).
    apply Qplus_le_compat; [apply H; left; reflexivity|].
    apply IH. intros y Hy. apply H. right. exact Hy.
Qed.

Lemma valid_sum_nonneg lm h dist :
  valid_model lm -> In (h, dist) lm -> (0 <= sum_Q (values dist))%Q.
Proof.
  intros Hv Hin. apply sum_Q_nonneg. intros x Hx.
  unfold values in Hx. apply in_map_iff in Hx. destruct Hx as [[c p] [<- Hc]].
  apply Qlt_le_weak. exact (proj1 (Hv _ _ _ _ Hin Hc)).
Qed.

Lemma unknown_factor_pos lm h dist :
  valid_model lm -> dget str_eq_dec lm h = Some dist ->
  (0 < sum_Q (values dist) + 1)%Q /\ (0 < unknown_factor lm h)%Q
  /\ (unknown_factor lm h <= 1)%Q.
Proof.
  intros Hv Hd. pose proof (@valid_sum_nonneg lm h dist Hv (dget_In _ _ _ Hd)) as H0.
  assert (H1 : (0 < sum_Q (values dist) + 1)%Q).
  { apply Qlt_le_trans with (0 + 1)%Q; [reflexivity|].
    apply Qplus_le_compat; [exact H0|apply Qle_refl]. }
  unfold unknown_factor, dget_or. rewrite Hd. split; [exact H1|]. split.
  - apply Qlt_shift_div_l; [exact H1|]. rewrite Qmult_0_l. reflexivity.
  - apply Qle_shift_div_r; [exact H1|]. rewrite Qmult_1_l.
    rewrite <- (Qplus_0_l 1) at 1.
    apply Qplus_le_compat; [exact H0|apply Qle_refl].
Qed.

Lemma unk_step_present lm a h :
  valid_model lm -> dget str_eq_dec lm h <> None ->
  unk_step lm a h = Ok (a + unknown_term lm h)%R.
Proof.
  intros Hv Hd. destruct (dget str_eq_dec lm h) as [dist|] eqn:E; [|congruence].
  destruct (@unknown_factor_pos lm h dist Hv E) as (Hs & Hf & _).
  unfold unk_step, getitem. rewrite E. simpl. unfold float_div.
  destruct (Qeq_bool (sum_Q (values dist) + 1) 0) eqn:Eb.
  - apply Qeq_bool_eq in Eb. rewrite Eb in Hs. discriminate Hs.
  - simpl. unfold unknown_factor, dget_or in Hf. rewrite E in Hf.
    rewrite math_log_pos by exact Hf. simpl.
    unfold unknown_term, dget_or. rewrite E. reflexivity.
Qed.

Lemma unk_loop_result lm hs :
  valid_model lm -> (forall h, In h hs -> dget str_eq_dec lm h <> None) ->
  forall a, foldM (unk_step lm) hs a
            = Ok (a + sum_R (map (unknown_term lm) hs))%R.
Proof.
  intros Hv. induction hs as [|h hs IH]; intros Hp a; simpl.
  - f_equal. lra.
  - rewrite unk_step_present by (auto; apply Hp; left; reflexivity). simpl.
    rewrite IH by (intros h' Hh'; apply Hp; right; exact Hh'). f_equal. lra.
Qed.

Lemma unknown_at_known lm data n i :
  unknown_at lm data n i = true ->
  dget str_eq_dec lm (slice data i (i + n)) <> None.
Proof.
  unfold unknown_at. destruct (dget str_eq_dec lm _); [discriminate|discriminate].
Qed.

Lemma length_padded_ge texts n : texts <> [] -> n <= length (padded texts n).
Proof. intros H. apply (padded_starts_with_pad n H). Qed.

(** The value of [perplexity] on a model of probabilities. *)
Lemma perplexity_log_sum (lm : model) (test : list str) (n : nat) :
  valid_model lm -> 1 <= n -> test <> [] ->
  exists unk : list str,
    NoDup unk
    /\ (forall h, In h unk <->
          exists i, i < length (padded test n) - n
                    /\ unknown_at lm (padded test n) n i = true
                    /\ slice (padded test n) i (i + n) = h)
    /\ perplexity lm test n
       = Ok (exp (-1 * (sum_R (map (position_term lm (padded test n) n)
                                   (filter (known_at lm (padded test n) n)
                                           (range (length (padded test n) - n))))
                        + sum_R (map (unknown_term lm) unk))
                  / INR (length (padded test n))))%R.
Proof.
  intros Hv Hn Ht. pose proof (@length_padded_ge test n Ht) as Hlen.
  set (data := padded test n) in *.
  destruct (@scan_result lm data n Hv (range (length data - n))) with (a := 0%R) (u := @nil (str * nat))
    as (u' & Hscan & Hnd & Hkeys).
  { intros i Hi. apply in_seq in Hi. lia. }
  { constructor. }
  exists (keys u'). split; [exact Hnd|]. split.
  - intros h. rewrite Hkeys. unfold unknown_among. split.
    + intros [[]|(i & Hi & Hu & Hh)]. exists i. apply in_seq in Hi.
      split; [lia|auto].
    + intros (i & Hi & Hu & Hh). right. exists i.
      split; [apply in_seq; lia|auto].
  - unfold perplexity. cbv zeta. fold data.
    match goal with
    | |- bind ?m _ = _ => replace m with (Ok (A := R * dict str nat)
        ((0 + sum_R (map (position_term lm data n)
                         (filter (known_at lm data n)
                                 (range (length data - n)))))%R, u'))
        by (symmetry; exact Hscan)
    end.
    simpl bind.
    rewrite unk_loop_result; [|exact Hv|].
    + simpl bind. destruct (Nat.eqb_spec (length data) 0) as [E|_]; [lia|].
      do 2 f_equal. lra.
    + intros h Hh. apply Hkeys in Hh. destruct Hh as [[]|(i & _ & Hu & <-)].
      apply unknown_at_known with (1 := Hu).
Qed.

(** C6. For a model of probabilities, an order [n >= 1] and a non-empty
    test corpus, [perplexity] returns [exp(-1 * log_sum / len(data))], where
    [data] is the whole padded test stream (its [n] pads per document
    included) and [log_sum] is made of [ln p] for the scanned positions whose
    history is a key of the model (a position with another history adds
    nothing) and of one term per history [h] in a duplicate-free list [unk]
    of the histories that had an unknown outcome. *)
Theorem perplexity_formula (lm : model) (test : list str) (n : nat) :
  valid_model lm -> 1 <= n -> test <> [] ->
  exists unk : list str,
    NoDup unk
    /\ (forall h, In h unk <->
          exists i, i < length (padded test n) - n
                    /\ unknown_at lm (padded test n) n i = true
                    /\ slice (padded test n) i (i + n) = h)
    /\ perplexity lm test n
       = Ok (exp (-1 * (sum_R (map (position_term lm (padded test n) n)
                                   (filter (known_at lm (padded test n) n)
                                           (range (length (padded test n) - n))))
                        + sum_R (map (unknown_term lm) unk))
                  / INR (length (padded test n))))%R.
Proof. exact (@perplexity_log_sum lm test n). Qed.

(** ** The log-sum as the logarithm of a rational likelihood *)

Lemma ln_nonpos x : (0 < x <= 1)%R -> (ln x <= 0)%R.
Proof.
  intros [H0 H1]. destruct H1 as [H1| ->]; [|rewrite ln_1; lra].
  pose proof (ln_increasing x 1 H0 H1) as H. rewrite ln_1 in H. lra.
Qed.

Lemma Q2R_probability q :
  (0 < q /\ q <= 1)%Q -> (0 < Q2R q <= 1)%R.
Proof.
  intros [H0 H1]. apply Qlt_Rlt in H0. apply Qle_Rle in H1.
  rewrite Q2R_zero in H0. rewrite Q2R_one in H1. lra.
Qed.

Lemma ln_prod_Q (qs : list Q) :
  (forall q, In q qs -> (0 < q /\ q <= 1)%Q) ->
  (0 < prod_Q qs /\ prod_Q qs <= 1)%Q
  /\ sum_R (map (fun q => ln (Q2R q)) qs) = ln (Q2R (prod_Q qs)).
Proof.
  induction qs as [|q qs IH]; intros H.
  - simpl. split; [split; [reflexivity|apply Qle_refl]|].
    rewrite Q2R_one, ln_1. reflexivity.
  - destruct (H q (or_introl eq_refl)) as [Hq0 Hq1].
    destruct IH as [[Hp0 Hp1] Hsum]; [intros q' Hq'; apply H; right; exact Hq'|].
    cbn [prod_Q fold_right map sum_R]. fold (prod_Q qs).
    fold (sum_R (map (fun q => ln (Q2R q)) qs)). split; [split|].
    + apply Qmult_lt_0_compat; assumption.
    + rewrite <- (Qmult_1_l 1).
      apply Qmult_le_compat_nonneg; split;
        auto using Qlt_le_weak.
    + rewrite Hsum, Q2R_mult, ln_mult; [reflexivity| |];
        apply Q2R_probability; split; assumption.
Qed.

Lemma sum_R_perm xs ys : Permutation xs ys -> sum_R xs = sum_R ys.
Proof.
  induction 1 as [|x l l' _ IH|x y l|l l' l'' _ IH1 _ IH2]; simpl;
    [reflexivity|rewrite IH; reflexivity|lra|congruence].
Qed.

Lemma position_term_factor lm data n i :
  position_term lm data n i = ln (Q2R (position_factor lm data n i)).
Proof.
  unfold position_term, position_factor.
  destruct (lookup lm _ _); [reflexivity|]. rewrite Q2R_one, ln_1. reflexivity.
Qed.

Lemma position_factor_probability lm data n i :
  valid_model lm ->
  (0 < position_factor lm data n i /\ position_factor lm data n i <= 1)%Q.
Proof.
  intros Hv. unfold position_factor, lookup.
  destruct (dget str_eq_dec lm _) as [dist|] eqn:Ed;
    [|split; [reflexivity|apply Qle_refl]].
  destruct (dget ascii_dec dist _) as [p|] eqn:Ec;
    [|split; [reflexivity|apply Qle_refl]].
  exact (Hv _ _ _ _ (dget_In _ _ _ Ed) (dget_In _ _ _ Ec)).
Qed.

(** For a model of probabilities, [perplexity] is [exp(-1 * ln(L) / len)]
    for the rational likelihood [L], which lies in (0, 1]. *)
Lemma perplexity_likelihood lm test n :
  valid_model lm -> 1 <= n -> test <> [] ->
  (0 < likelihood lm (padded test n) n
   /\ likelihood lm (padded test n) n <= 1)%Q
  /\ perplexity lm test n
     = Ok (exp (-1 * ln (Q2R (likelihood lm (padded test n) n))
                / INR (length (padded test n))))%R.
Proof.
  intros Hv Hn Ht.
  destruct (perplexity_log_sum Hv Hn Ht) as (unk & Hnd & Hunk & Hper).
  set (data := padded test n) in *.
  set (known := filter (known_at lm data n) (range (length data - n))) in *.
  destruct (@ln_prod_Q (map (position_factor lm data n) known)) as [[Ha0 Ha1] Hsa].
  { intros q Hq. apply in_map_iff in Hq. destruct Hq as (i & <- & _).
    apply position_factor_probability, Hv. }
  assert (Hmem : forall h, In h (unknown_histories lm data n) <-> In h unk).
  { intros h. unfold unknown_histories. rewrite nodup_In, Hunk, in_map_iff.
    split.
    - intros (i & Hh & Hi). apply filter_In in Hi. destruct Hi as [Hi Hu].
      apply in_seq in Hi. exists i. split; [lia|auto].
    - intros (i & Hi & Hu & Hh). exists i. split; [exact Hh|].
      apply filter_In. split; [apply in_seq; lia|exact Hu]. }
  destruct (@ln_prod_Q (map (unknown_factor lm) (unknown_histories lm data n)))
    as [[Hb0 Hb1] Hsb].
  { intros q Hq. apply in_map_iff in Hq. destruct Hq as (h & <- & Hh).
    apply Hmem, Hunk in Hh. destruct Hh as (i & _ & Hu & <-).
    apply unknown_at_known in Hu.
    destruct (dget str_eq_dec lm (slice data i (i + n))) as [dist|] eqn:E;
      [|congruence].
    destruct (@unknown_factor_pos lm _ dist Hv E) as (_ & H0 & H1). auto. }
  assert (HP : Permutation unk (unknown_histories lm data n)).
  { apply NoDup_Permutation; [exact Hnd|apply NoDup_nodup|].
    intros h. symmetry. apply Hmem. }
  unfold likelihood. fold data. fold known. split; [split|].
  - apply Qmult_lt_0_compat; assumption.
  - rewrite <- (Qmult_1_l 1).
    apply Qmult_le_compat_nonneg; split; auto using Qlt_le_weak.
  - rewrite Hper. do 3 f_equal.
    rewrite Q2R_mult, ln_mult;
      [|apply Q2R_probability; split; assumption
       |apply Q2R_probability; split; assumption].
    rewrite <- Hsa, <- Hsb, !map_map.
    rewrite (sum_R_perm (Permutation_map (unknown_term lm) HP)).
    rewrite (map_ext _ _ (position_term_factor lm data n)).
    reflexivity.
Qed.

(** C9. For a trained model, an order [n >= 1] and a non-empty test
    corpus, [perplexity] returns a value that is at least 1. *)
Theorem perplexity_at_least_one (texts : list str) (m : nat) (lm : model)
  (test : list str) (n : nat) :
  train_char_lm texts m = Ok lm -> 1 <= n -> test <> [] ->
  exists r, perplexity lm test n = Ok r /\ (1 <= r)%R.
Proof.
  intros Htr Hn Ht. pose proof (trained_valid _ _ Htr) as Hv.
  destruct (perplexity_likelihood Hv Hn Ht) as [HL Hper].
  eexists. split; [exact Hper|].
  pose proof (ln_nonpos (Q2R_probability HL)) as Hln.
  pose proof (@length_padded_ge test n Ht) as Hlen.
  assert (Hpos : (0 < INR (length (padded test n)))%R) by (apply lt_0_INR; lia).
  set (x := (-1 * ln (Q2R (likelihood lm (padded test n) n))
             / INR (length (padded test n)))%R).
  assert (Hx : (0 <= x)%R).
  { unfold x. apply Rmult_le_pos; [lra|].
    apply Rlt_le, Rinv_0_lt_compat, Hpos. }
  destruct Hx as [Hx| <-]; [|rewrite exp_0; lra].
  apply exp_increasing in Hx. rewrite exp_0 in Hx. lra.
Qed.

(** ** Golden vectors *)

Lemma Q2R_Qpow_nat q k : Q2R (Qpow_nat q k) = (Q2R q ^ k)%R.
Proof.
  induction k as [|k IH]; simpl; [apply Q2R_one|].
  rewrite Q2R_mult, IH. reflexivity.
Qed.

Lemma ln_le_compat x y : (0 < x)%R -> (x <= y)%R -> (ln x <= ln y)%R.
Proof.
  intros H0 [H| ->]; [|lra]. apply Rlt_le, ln_increasing; assumption.
Qed.

Lemma exp_le_compat x y : (x <= y)%R -> (exp x <= exp y)%R.
Proof. intros [H| ->]; [|lra]. apply Rlt_le, exp_increasing, H. Qed.

(** Bounds on [exp(-1 * ln(L) / N)], the [N]-th root of [1 / L], from
    inequalities between rationals. *)
Lemma root_bounds (L lo hi : Q) (N : nat) :
  0 < N -> (0 < L)%Q -> (0 < lo)%Q -> (0 < hi)%Q ->
  (Qpow_nat lo N * L <= 1)%Q -> (1 <= Qpow_nat hi N * L)%Q ->
  (Q2R lo <= exp (-1 * ln (Q2R L) / INR N) <= Q2R hi)%R.
Proof.
  intros HN HL Hlo Hhi Hl Hh.
  apply Qlt_Rlt in HL, Hlo, Hhi. rewrite Q2R_zero in HL, Hlo, Hhi.
  apply Qle_Rle in Hl, Hh. rewrite Q2R_mult, Q2R_Qpow_nat, Q2R_one in Hl, Hh.
  assert (HNR : (0 < INR N)%R) by (apply lt_0_INR, HN).
  assert (Hpl : (0 < Q2R lo ^ N)%R) by (apply pow_lt, Hlo).
  assert (Hph : (0 < Q2R hi ^ N)%R) by (apply pow_lt, Hhi).
  assert (Hll : (INR N * ln (Q2R lo) + ln (Q2R L) <= 0)%R).
  { rewrite <- ln_pow, <- ln_mult, <- ln_1 by assumption.
    apply ln_le_compat; [apply Rmult_lt_0_compat; assumption|exact Hl]. }
  assert (Hhh : (0 <= INR N * ln (Q2R hi) + ln (Q2R L))%R).
  { rewrite <- ln_pow, <- ln_mult, <- ln_1 by assumption.
    apply ln_le_compat; [lra|exact Hh]. }
  set (x := (-1 * ln (Q2R L) / INR N)%R).
  assert (Hx : (INR N * x = - ln (Q2R L))%R) by (unfold x; field; lra).
  split.
  - rewrite <- (exp_ln (Q2R lo)) by exact Hlo. apply exp_le_compat.
    apply Rmult_le_reg_l with (INR N); [exact HNR|]. lra.
  - rewrite <- (exp_ln (Q2R hi)) by exact Hhi. apply exp_le_compat.
    apply Rmult_le_reg_l with (INR N); [exact HNR|]. lra.
Qed.

(** The perplexity of a test corpus within [eps] of a value [g]. *)
Lemma perplexity_near lm test n (g eps : Q) :
  valid_model lm -> 1 <= n -> test <> [] ->
  (0 <= eps)%Q -> (0 < g - eps)%Q ->
  (Qpow_nat (g - eps) (length (padded test n))
   * likelihood lm (padded test n) n <= 1)%Q ->
  (1 <= Qpow_nat (g + eps) (length (padded test n))
        * likelihood lm (padded test n) n)%Q ->
  exists r, perplexity lm test n = Ok r /\ (Rabs (r - Q2R g) <= Q2R eps)%R.
Proof.
  intros Hv Hn Ht Heps Hlo Hl Hh.
  destruct (perplexity_likelihood Hv Hn Ht) as [[HL _] Hper].
  eexists. split; [exact Hper|].
  pose proof (@length_padded_ge test n Ht) as Hlen.
  assert (Hhi : (0 < g + eps)%Q).
  { apply Rlt_Qlt. rewrite Q2R_zero, Q2R_plus.
    apply Qlt_Rlt in Hlo. apply Qle_Rle in Heps.
    rewrite Q2R_zero in Hlo, Heps. rewrite Q2R_minus in Hlo. lra. }
  destruct (@root_bounds (likelihood lm (padded test n) n) (g - eps) (g + eps)
              (length (padded test n))) as [H1 H2]; try assumption; [lia|].
  rewrite Q2R_minus in H1. rewrite Q2R_plus in H2.
  apply Rabs_le. lra.
Qed.


(** C8. Training on ["The wheel has come full circle."] with order 2 and
    scoring the same text gives a perplexity within 1e-6 of
    1.1829788187396464; scoring ["Tha weeel cos tome hell circle."] against
    the same model gives a perplexity within 1e-6 of 1.3418676875883773. *)
Theorem golden_vectors :
  exists lm r1 r2,
    train_char_lm [wheel] 2 = Ok lm
    /\ perplexity lm [wheel] 2 = Ok r1
    /\ (Rabs (r1 - 1.1829788187396464) <= 1e-6)%R
    /\ perplexity lm [wheel_corrupted] 2 = Ok r2
    /\ (Rabs (r2 - 1.3418676875883773) <= 1e-6)%R.
Proof.
  destruct (train_char_lm [wheel] 2) as [lm|e] eqn:Etrain;
    [|vm_compute in Etrain; discriminate Etrain].
  pose proof (trained_valid _ _ Etrain) as Hv.
  assert (Elm : Ok lm = train_char_lm [wheel] 2) by (symmetry; exact Etrain).
  vm_compute in Elm. injection Elm as Elm.
  assert (Hn : 1 <= 2) by lia.
  assert (Ht1 : [wheel] <> []) by discriminate.
  assert (Ht2 : [wheel_corrupted] <> []) by discriminate.
  assert (Heps : (0 <= 0.000001)%Q) by discriminate.
  assert (Hr1 : exists r, perplexity lm [wheel] 2 = Ok r
                /\ (Rabs (r - Q2R 1.1829788187396464) <= Q2R 0.000001)%R).
  { apply (perplexity_near Hv Hn Ht1 Heps); [reflexivity| |];
      rewrite Elm; apply Qle_bool_imp_le; vm_compute; reflexivity. }
  assert (Hr2 : exists r, perplexity lm [wheel_corrupted] 2 = Ok r
                /\ (Rabs (r - Q2R 1.3418676875883773) <= Q2R 0.000001)%R).
  { apply (perplexity_near Hv Hn Ht2 Heps); [reflexivity| |];
      rewrite Elm; apply Qle_bool_imp_le; vm_compute; reflexivity. }
  clear Elm.
  destruct Hr1 as (r1 & Hr1 & Hb1). destruct Hr2 as (r2 & Hr2 & Hb2).
  exists lm, r1, r2. split; [reflexivity|]. split; [exact Hr1|].
  assert (Eeps : Q2R 0.000001 = 1e-6%R)
    by (unfold Q2R; cbn [Qnum Qden]; lra).
  rewrite Eeps in Hb1, Hb2.
  split; [|split; [exact Hr2|]].
  - replace 1.1829788187396464%R with (Q2R 1.1829788187396464)
      by (unfold Q2R; cbn [Qnum Qden]; lra).
    exact Hb1.
  - replace 1.3418676875883773%R with (Q2R 1.3418676875883773)
      by (unfold Q2R; cbn [Qnum Qden]; lra).
    exact Hb2.
Qed.

(** ** The term for unknown outcomes on a trained model *)

(** On a trained model the values summed by [sum(lm[h].values())] are the
    normalised probabilities, so the sum is 1 and the term is [ln(1 / 2)],
    whatever the number of times [h] was counted in training. *)
Lemma unknown_term_trained texts n lm h dist :
  train_char_lm texts n = Ok lm ->
  dget str_eq_dec lm h = Some dist ->
  unknown_term lm h = ln (1 / 2).
Proof.
  intros Ht Hd.
  destruct (trained_distribution _ _ _ Ht Hd) as (chars & _ & -> & Hs & _).
  unfold unknown_term, dget_or. rewrite Hd. f_equal.
  assert (E : (1 / (sum_Q (values (normalize_pure chars)) + 1) == 1 # 2)%Q)
    by (rewrite (sum_normalize_pure _ Hs); reflexivity).
  rewrite (Qeq_eqR _ _ E). unfold Q2R. cbn [Qnum Qden]. lra.
Qed.

(** C2 as stated fails.  After training on ["aaa"] with order 1 the
    history ["a"] has total count 2.  Scoring ["ab"] meets one unknown
    outcome, under ["a"]; the term added is [ln(1 / 2)], not
    [ln(1 / (2 + 1))], and the perplexity is [exp(-ln(1 / 2) / 3)]. *)
Theorem unknown_term_ignores_training_count :
  exists lm,
    train_char_lm [lit "aaa"] 1 = Ok lm
    /\ occ_hist (padded [lit "aaa"] 1) 1 (lit "a") = 2
    /\ unknown_histories lm (padded [lit "ab"] 1) 1 = [lit "a"]
    /\ unknown_term lm (lit "a") = ln (1 / 2)
    /\ perplexity lm [lit "ab"] 1 = Ok (exp (-1 * ln (1 / 2) / 3))
    /\ exp (-1 * ln (1 / 2) / 3) <> exp (-1 * ln (1 / (2 + 1)) / 3).
Proof.
  destruct (train_char_lm [lit "aaa"] 1) as [lm|e] eqn:Etrain;
    [|vm_compute in Etrain; discriminate Etrain].
  pose proof (trained_valid _ _ Etrain) as Hv.
  assert (Elm : Ok lm = train_char_lm [lit "aaa"] 1) by (symmetry; exact Etrain).
  vm_compute in Elm. injection Elm as Elm.
  exists lm. split; [reflexivity|]. split; [reflexivity|].
  split; [rewrite Elm; reflexivity|]. split; [|split].
  - apply (unknown_term_trained _ _ (lit "a") Etrain (dist := [("a"%char, 2 # 2)])).
    rewrite Elm. reflexivity.
  - assert (Hn : 1 <= 1) by lia.
    assert (Ht : [lit "ab"] <> []) by discriminate.
    destruct (perplexity_likelihood Hv Hn Ht) as [_ Hper]. rewrite Hper.
    assert (EL : likelihood lm (padded [lit "ab"] 1) 1 = (2 # 4)%Q)
      by (rewrite Elm; vm_compute; reflexivity).
    rewrite EL. do 2 f_equal.
    replace (Q2R (2 # 4)) with (1 / 2)%R by (unfold Q2R; cbn [Qnum Qden]; lra).
    replace (INR (length (padded [lit "ab"] 1))) with 3%R
      by (cbn [padded map concat pad repeat lit list_ascii_of_string app length INR]; lra).
    reflexivity.
  - intros E. apply exp_inv in E.
    assert (E' : ln (1 / 2) = ln (1 / (2 + 1))) by lra.
    apply ln_inv in E'; lra.
Qed.

Lemma sum_R_constant {A : Type} (f : A -> R) (c : R) (l : list A) :
  (forall a, In a l -> f a = c) ->
  sum_R (map f l) = (INR (length l) * c)%R.
Proof.
  induction l as [|a l IH]; intros H.
  - simpl. lra.
  - cbn [map sum_R fold_right length]. fold (sum_R (map f l)).
    rewrite (H a (or_introl eq_refl)), IH by (intros b Hb; apply H; right; exact Hb).
    rewrite S_INR. lra.
Qed.

(** C2, as the code has it.  When [perplexity] scores a non-empty corpus
    with order [n >= 1] against a trained model, the histories of the model
    that had at least one unknown outcome form a duplicate-free list [unk],
    and each adds exactly one term [ln(1 / (s + 1))] to the log-sum, however
    many of its positions had an unknown outcome.  Here [s] is the sum of the
    values of the history's distribution in the model, which are normalised
    probabilities: [s] is 1 and the term is [ln(1 / 2)], whatever the number
    of times the history was counted in training. *)
Theorem unknown_term_once_per_history (texts : list str) (m : nat)
  (lm : model) (test : list str) (n : nat) :
  train_char_lm texts m = Ok lm -> 1 <= n -> test <> [] ->
  exists unk : list str,
    NoDup unk
    /\ (forall h, In h unk <->
          exists i, i < length (padded test n) - n
                    /\ unknown_at lm (padded test n) n i = true
                    /\ slice (padded test n) i (i + n) = h)
    /\ (forall h, In h unk ->
          exists dist,
            dget str_eq_dec lm h = Some dist
            /\ (sum_Q (values dist) == 1)%Q
            /\ unknown_term lm h
               = ln (Q2R (1 / (sum_Q (values dist) + 1)))
            /\ unknown_term lm h = ln (1 / 2))
    /\ sum_R (map (unknown_term lm) unk) = (INR (length unk) * ln (1 / 2))%R
    /\ perplexity lm test n
       = Ok (exp (-1 * (sum_R (map (position_term lm (padded test n) n)
                                   (filter (known_at lm (padded test n) n)
                                           (range (length (padded test n) - n))))
                        + INR (length unk) * ln (1 / 2))
                  / INR (length (padded test n))))%R.
Proof.
  intros Htr Hn Ht. pose proof (trained_valid _ _ Htr) as Hv.
  destruct (perplexity_log_sum Hv Hn Ht) as (unk & Hnd & Hunk & Hper).
  assert (Hterm : forall h, In h unk ->
            exists dist,
              dget str_eq_dec lm h = Some dist
              /\ (sum_Q (values dist) == 1)%Q
              /\ unknown_term lm h
                 = ln (Q2R (1 / (sum_Q (values dist) + 1)))
              /\ unknown_term lm h = ln (1 / 2)).
  { intros h Hh. apply Hunk in Hh. destruct Hh as (i & _ & Hu & <-).
    apply unknown_at_known in Hu.
    destruct (dget str_eq_dec lm (slice (padded test n) i (i + n)))
      as [dist|] eqn:Ed; [|congruence].
    exists dist. split; [reflexivity|].
    destruct (trained_distribution _ _ _ Htr Ed) as (chars & _ & Edist & Hs & _).
    split; [rewrite Edist; apply sum_normalize_pure, Hs|]. split.
    - unfold unknown_term, dget_or. rewrite Ed. reflexivity.
    - apply (@unknown_term_trained texts m lm _ dist Htr Ed). }
  assert (Hsum : sum_R (map (unknown_term lm) unk)
                 = (INR (length unk) * ln (1 / 2))%R).
  { apply sum_R_constant. intros h Hh.
    destruct (Hterm h Hh) as (dist & _ & _ & _ & E). exact E. }
  exists unk. split; [exact Hnd|]. split; [exact Hunk|].
  split; [exact Hterm|]. split; [exact Hsum|].
  rewrite Hper, Hsum. reflexivity.
Qed.

(** * Instances

    Each theorem above that has hypotheses, applied to a concrete input. *)

Lemma distribution_sums_to_one_witness :
  (sum_Q (values [("a"%char, (2 # 2)%Q)]) == 1)%Q
  /\ (forall c p, In (c, p) [("a"%char, (2 # 2)%Q)] ->
        (0 < p)%Q /\ 0 < occ (padded [lit "aaa"] 1) 1 (lit "a") c).
Proof.
  destruct (@distribution_sums_to_one [lit "aaa"] 1
              [(lit "~", [("a"%char, (1 # 1)%Q)]);
               (lit "a", [("a"%char, (2 # 2)%Q)])]
              (lit "a") [("a"%char, (2 # 2)%Q)] eq_refl eq_refl)
    as (H1 & _ & H3 & _).
  split; [exact H1|exact H3].
Defined.

Lemma pad_history_present_witness :
  In (pad 1) (keys [(lit "~", [("a"%char, (1 # 1)%Q)]);
                    (lit "a", [("b"%char, (1 # 1)%Q)])]).
Proof.
  destruct (@pad_history_present [lit "ab"] 1
              [(lit "~", [("a"%char, (1 # 1)%Q)]);
               (lit "a", [("b"%char, (1 # 1)%Q)])] eq_refl) as [_ H].
  destruct H as [H _]; [discriminate|exact H].
Defined.

(** The model trained on ["ab"] does not know the history ["b"], which
    generation reaches at its third step. *)
Lemma generate_unknown_history_raises_witness :
  generate_text [(lit "~", [("a"%char, (1 # 1)%Q)]);
                 (lit "a", [("b"%char, (1 # 1)%Q)])] 1 3 (fun _ => 0%Q)
  = Raise (KeyError (lit "b")).
Proof.
  apply (@generate_unknown_history_raises
           [(lit "~", [("a"%char, (1 # 1)%Q)]);
            (lit "a", [("b"%char, (1 # 1)%Q)])] 1 3 (fun _ => 0%Q) 2
           (lit "ab") (lit "ab")); [lia|reflexivity|reflexivity].
Defined.

Lemma train_permutation_same_last_witness :
  (forall h c, occ (padded ([lit "a"; lit "b"] ++ [lit "c"]) 1) 1 h c
               = occ (padded ([lit "b"; lit "a"] ++ [lit "c"]) 1) 1 h c)
  /\ (forall h, occ_hist (padded ([lit "a"; lit "b"] ++ [lit "c"]) 1) 1 h
                = occ_hist (padded ([lit "b"; lit "a"] ++ [lit "c"]) 1) 1 h)
  /\ exists lm lm',
       train_char_lm ([lit "a"; lit "b"] ++ [lit "c"]) 1 = Ok lm
       /\ train_char_lm ([lit "b"; lit "a"] ++ [lit "c"]) 1 = Ok lm'
       /\ forall h c, lookup lm h c = lookup lm' h c.
Proof.
  apply (@train_permutation_same_last 1 [lit "a"; lit "b"] [lit "b"; lit "a"]
           (lit "c")).
  apply perm_swap.
Defined.

Lemma perplexity_formula_witness :
  exists r, perplexity [(lit "~", [("a"%char, (1 # 1)%Q)]);
                        (lit "a", [("a"%char, (2 # 2)%Q)])] [lit "ab"] 1 = Ok r.
Proof.
  destruct (@perplexity_formula
              [(lit "~", [("a"%char, (1 # 1)%Q)]);
               (lit "a", [("a"%char, (2 # 2)%Q)])] [lit "ab"] 1)
    as (unk & _ & _ & H).
  - exact (@trained_valid [lit "aaa"] 1 _ eq_refl).
  - lia.
  - discriminate.
  - eexists. exact H.
Defined.

Lemma perplexity_at_least_one_witness :
  exists r, perplexity [(lit "~", [("a"%char, (1 # 1)%Q)]);
                        (lit "a", [("a"%char, (2 # 2)%Q)])] [lit "ab"] 1 = Ok r
            /\ (1 <= r)%R.
Proof.
  apply (@perplexity_at_least_one [lit "aaa"] 1
           [(lit "~", [("a"%char, (1 # 1)%Q)]);
            (lit "a", [("a"%char, (2 # 2)%Q)])] [lit "ab"] 1 eq_refl);
    [lia|discriminate].
Defined.

(** * Further properties of the five functions *)

(** ** [normalize] on its own *)

Lemma normalize_zero_sum c k (cntr : counter) :
  sum_nat (values ((c, k) :: cntr)) = 0 ->
  normalize ((c, k) :: cntr) = Raise ZeroDivisionError.
Proof.
  intros Hs. unfold normalize. rewrite Hs. reflexivity.
Qed.

Lemma normalize_nonzero_sum (cntr : counter) :
  sum_nat (values cntr) <> 0 -> normalize cntr = Ok (normalize_pure cntr).
Proof.
  intros Hs. unfold normalize, normalize_pure.
  apply mapM_pure. intros [c k] _. unfold int_div.
  destruct (Nat.eqb_spec (sum_nat (values cntr)) 0); [contradiction|reflexivity].
Qed.

(** X1. [normalize(counter)] raises [ZeroDivisionError] exactly when the
    counter has an entry and its values sum to 0.  An empty counter gives an
    empty dictionary.  Otherwise the result has the keys of the counter in
    the same order, each value is the count divided by the sum, and the
    values sum to 1. *)
Theorem normalize_cases (cntr : counter) :
  normalize [] = Ok []
  /\ (cntr <> [] -> sum_nat (values cntr) = 0 ->
      normalize cntr = Raise ZeroDivisionError)
  /\ (sum_nat (values cntr) <> 0 ->
      exists dist,
        normalize cntr = Ok dist
        /\ keys dist = keys cntr
        /\ (sum_Q (values dist) == 1)%Q
        /\ forall c, dget ascii_dec dist c
                     = option_map
                         (fun k => (nat2Q k / nat2Q (sum_nat (values cntr)))%Q)
                         (dget ascii_dec cntr c)).
Proof.
  split; [reflexivity|]. split.
  - destruct cntr as [|[c k] cntr]; [congruence|]. intros _.
    apply normalize_zero_sum.
  - intros Hs. exists (normalize_pure cntr).
    split; [apply normalize_nonzero_sum, Hs|]. split; [|split].
    + unfold normalize_pure.
      apply (keys_map_values
               (fun e => (nat2Q (snd e) / nat2Q (sum_nat (values cntr)))%Q)).
    + apply sum_normalize_pure. lia.
    + intros c. apply dget_normalize_pure.
Qed.

(** ** What the counting loop conserves *)

Lemma grand_total_dset (lm : counts) h (v : counter) :
  grand_total (dset str_eq_dec lm h v)
  + sum_nat (values (dget_or str_eq_dec lm h []))
  = grand_total lm + sum_nat (values v).
Proof.
  unfold grand_total, dget_or. induction lm as [|[h0 v0] lm IH]; simpl.
  - rewrite sum_nat_cons. unfold sum_nat; simpl. lia.
  - destruct (str_eq_dec h h0) as [->|Hh]; simpl; rewrite !sum_nat_cons; simpl;
      lia.
Qed.

Lemma grand_total_incr lm h c : grand_total (incr lm h c) = S (grand_total lm).
Proof.
  unfold incr.
  pose proof (grand_total_dset lm h
                (dset ascii_dec (dget_or str_eq_dec lm h []) c
                      (dget_or ascii_dec (dget_or str_eq_dec lm h []) c 0 + 1))).
  pose proof (sum_values_dset (dget_or str_eq_dec lm h []) c
                (dget_or ascii_dec (dget_or str_eq_dec lm h []) c 0 + 1)).
  lia.
Qed.

Lemma grand_total_count_pairs ps : forall lm,
  grand_total (count_pairs ps lm) = grand_total lm + length ps.
Proof.
  unfold count_pairs. induction ps as [|p ps IH]; intros lm; simpl; [lia|].
  rewrite IH, grand_total_incr. lia.
Qed.

(** X2. The counting loop of [train_char_lm] never raises, and the counts
    it stores add up to the number of scanned positions, [len(data) - n]
    (0 when the stream is shorter than [n]). *)
Theorem count_loop_conserves_positions (data : str) (n : nat) :
  exists lm, count_loop data n = Ok lm
             /\ grand_total lm = length data - n.
Proof.
  eexists. split; [apply count_loop_pairs|].
  rewrite grand_total_count_pairs. unfold pairs, range.
  rewrite length_map, length_seq. reflexivity.
Qed.

(** X3. Counting composes over a split of the stream: when the second
    part [B] has at least [n] characters, the counts of [A ++ B] are the
    counts of [A] followed by the first [n] characters of [B], plus the
    counts of [B]. *)
Theorem count_loop_split (A B : str) (n : nat) :
  n <= length B ->
  exists lm lmA lmB,
    count_loop (A ++ B) n = Ok lm
    /\ count_loop (A ++ firstn n B) n = Ok lmA
    /\ count_loop B n = Ok lmB
    /\ (forall h c, cnt lm h c = cnt lmA h c + cnt lmB h c)
    /\ (forall h, total lm h = total lmA h + total lmB h).
Proof.
  intros Hn. do 3 eexists.
  split; [apply count_loop_pairs|]. split; [apply count_loop_pairs|].
  split; [apply count_loop_pairs|]. split.
  - intros h c. rewrite !cnt_count_pairs, (pairs_app A B Hn), count_occ_app.
    change (cnt [] h c) with 0. lia.
  - intros h. rewrite !total_count_pairs, (pairs_app A B Hn), map_app, count_occ_app.
    change (total [] h) with 0. lia.
Qed.

Lemma count_loop_split_witness :
  exists lm lmA lmB,
    count_loop (lit "~ab" ++ lit "~cd") 1 = Ok lm
    /\ count_loop (lit "~ab" ++ firstn 1 (lit "~cd")) 1 = Ok lmA
    /\ count_loop (lit "~cd") 1 = Ok lmB
    /\ (forall h c, cnt lm h c = cnt lmA h c + cnt lmB h c)
    /\ (forall h, total lm h = total lmA h + total lmB h).
Proof.
  apply (@count_loop_split (lit "~ab") (lit "~cd") 1). simpl. lia.
Defined.

(** ** The keys of a trained model *)

Lemma dset_not_nil {K V : Type} (dec : forall a b : K, {a = b} + {a <> b})
  (d : dict K V) k v : dset dec d k v <> [].
Proof.
  destruct d as [|[k0 v0] d]; simpl; [discriminate|].
  destruct (dec k k0); discriminate.
Qed.

Lemma length_keys_dset {K V : Type} (dec : forall a b : K, {a = b} + {a <> b})
  (d : dict K V) k v : length (keys (dset dec d k v)) <= S (length (keys d)).
Proof.
  unfold keys. induction d as [|[k0 v0] d IH]; simpl; [lia|].
  destruct (dec k k0); simpl; lia.
Qed.

Lemma well_formed_incr lm h c :
  counters_well_formed lm -> counters_well_formed (incr lm h c).
Proof.
  intros Hw h' chars Hin. unfold incr in Hin.
  apply In_dset in Hin. destruct Hin as [E|Hin]; [|exact (Hw _ _ Hin)].
  injection E as -> ->. split; [|apply dset_not_nil].
  apply keys_dset_NoDup. unfold dget_or.
  destruct (dget str_eq_dec lm h) as [chars|] eqn:E; [|constructor].
  exact (proj1 (Hw _ _ (dget_In _ _ _ E))).
Qed.

Lemma count_pairs_structure ps : forall lm,
  NoDup (keys lm) -> counters_well_formed lm ->
  NoDup (keys (count_pairs ps lm))
  /\ counters_well_formed (count_pairs ps lm)
  /\ length (keys (count_pairs ps lm)) <= length (keys lm) + length ps.
Proof.
  unfold count_pairs.
  induction ps as [|[h c] ps IH]; intros lm Hnd Hw; simpl; [auto with arith|].
  destruct (IH (incr lm h c)) as (H1 & H2 & H3).
  - unfold incr. apply keys_dset_NoDup, Hnd.
  - apply well_formed_incr, Hw.
  - split; [exact H1|]. split; [exact H2|].
    assert (H : length (keys (incr lm h c)) <= S (length (keys lm)))
      by (unfold incr; apply length_keys_dset).
    lia.
Qed.

Lemma length_slice_scanned (data : str) n i :
  i + n <= length data -> length (slice data i (i + n)) = n.
Proof.
  intros H. unfold slice. rewrite length_firstn, length_skipn. lia.
Qed.

Lemma history_in_pairs data n h :
  In h (map fst (pairs data n)) <->
  exists i, i < length data - n /\ slice data i (i + n) = h.
Proof.
  unfold pairs. rewrite map_map. simpl. rewrite in_map_iff. split.
  - intros (i & E & Hi). apply in_seq in Hi. exists i. split; [lia|exact E].
  - intros (i & Hi & E). exists i. split; [exact E|apply in_seq; lia].
Qed.

Lemma trained_key_iff texts n lm h :
  train_char_lm texts n = Ok lm ->
  (In h (keys lm) <-> In h (map fst (pairs (padded texts n) n))).
Proof.
  rewrite train_char_lm_pure. intros [= <-].
  rewrite (keys_map_values (fun e => normalize_pure (snd e))).
  rewrite <- (dget_keys str_eq_dec), keys_count_pairs. simpl. split.
  - intros [H|H]; [congruence|exact H].
  - auto.
Qed.

Lemma trained_key_length texts n lm h :
  train_char_lm texts n = Ok lm -> In h (keys lm) -> length h = n.
Proof.
  intros Ht Hin. apply (trained_key_iff _ _ h Ht) in Hin.
  apply history_in_pairs in Hin. destruct Hin as (i & Hi & <-).
  apply length_slice_scanned. lia.
Qed.

(** X4. The model returned by [train_char_lm] lists every history once;
    its histories are exactly the [n]-character windows that some scanned
    position shows, so each has length [n] and there are at most
    [len(data) - n] of them; and every distribution is non-empty with each
    character listed once. *)
Theorem trained_model_keys (texts : list str) (n : nat) :
  exists lm,
    train_char_lm texts n = Ok lm
    /\ NoDup (keys lm)
    /\ (forall h, In h (keys lm) <-> 0 < occ_hist (padded texts n) n h)
    /\ (forall h, In h (keys lm) -> length h = n)
    /\ length (keys lm) <= length (padded texts n) - n
    /\ (forall h dist, In (h, dist) lm -> NoDup (keys dist) /\ dist <> []).
Proof.
  eexists. split; [apply train_char_lm_pure|].
  destruct (@count_pairs_structure (pairs (padded texts n) n) [])
    as (Hnd & Hw & Hlen); [constructor|intros h chars []|].
  rewrite (keys_map_values (fun e => normalize_pure (snd e))).
  split; [exact Hnd|]. split; [|split; [|split]].
  - intros h. rewrite occ_hist_pairs.
    rewrite <- (keys_map_values (fun e => normalize_pure (snd e))).
    rewrite (@trained_key_iff texts n _ h (train_char_lm_pure texts n)).
    apply (count_occ_In str_eq_dec).
  - intros h Hin. apply (@trained_key_length texts n _ h (train_char_lm_pure texts n)).
    rewrite (keys_map_values (fun e => normalize_pure (snd e))). exact Hin.
  - unfold pairs, range in Hlen. rewrite length_map, length_seq in Hlen.
    exact Hlen.
  - intros h dist Hin. apply in_map_iff in Hin.
    destruct Hin as ([h' chars] & E & Hin). simpl in E. injection E as -> <-.
    destruct (Hw _ _ Hin) as [H1 H2]. split.
    + unfold normalize_pure.
      rewrite (keys_map_values
                 (fun e => (nat2Q (snd e) / nat2Q (sum_nat (values chars)))%Q)).
      exact H1.
    + unfold normalize_pure. intros E. apply map_eq_nil in E. contradiction.
Qed.

(** ** Scoring when the model knows none of the histories *)

Lemma scan_all_absent lm data n l :
  (forall i, In i l ->
     i + n < length data /\ dget str_eq_dec lm (slice data i (i + n)) = None) ->
  forall st, foldM (score_step lm data n) l st = Ok st.
Proof.
  induction l as [|i l IH]; intros H [a u]; cbn [foldM]; [reflexivity|].
  destruct (H i (or_introl eq_refl)) as [Hi Hd].
  rewrite (@score_step_absent lm data n i a u Hi Hd). cbn [bind].
  apply IH. intros j Hj. apply H. right. exact Hj.
Qed.

Lemma perplexity_all_absent lm test n :
  1 <= n -> test <> [] ->
  (forall i, i < length (padded test n) - n ->
     dget str_eq_dec lm (slice (padded test n) i (i + n)) = None) ->
  perplexity lm test n = Ok 1%R.
Proof.
  intros Hn Ht Habs. pose proof (@length_padded_ge test n Ht) as Hlen.
  unfold perplexity. cbv zeta.
  match goal with
  | |- bind ?m _ = _ =>
      replace m with (Ok (A := R * dict str nat) (0%R, []))
  end.
  - simpl. destruct (Nat.eqb_spec (length (padded test n)) 0) as [E|_]; [lia|].
    f_equal. rewrite <- exp_0. f_equal. unfold Rdiv. ring.
  - symmetry. apply scan_all_absent. intros i Hi. apply in_seq in Hi.
    split; [lia|]. apply Habs. lia.
Qed.

(** X5. When no scanned history of the test stream is a key of the model
    (an empty model, for instance), every position is skipped and
    [perplexity] returns exactly 1, the best possible value. *)
Theorem perplexity_unknown_text_is_one (lm : model) (test : list str) (n : nat) :
  1 <= n -> test <> [] ->
  (forall i, i < length (padded test n) - n ->
     dget str_eq_dec lm (slice (padded test n) i (i + n)) = None) ->
  perplexity lm test n = Ok 1%R.
Proof. exact (@perplexity_all_absent lm test n). Qed.

Lemma perplexity_unknown_text_is_one_witness :
  perplexity [] [lit "ab"; lit "c"] 2 = Ok 1%R.
Proof.
  apply perplexity_unknown_text_is_one; [lia|discriminate|reflexivity].
Defined.

(** ** A model used with another order *)

Lemma trained_other_length texts m lm h :
  train_char_lm texts m = Ok lm -> length h <> m ->
  dget str_eq_dec lm h = None.
Proof.
  intros Ht Hl. destruct (dget str_eq_dec lm h) eqn:E; [|reflexivity].
  exfalso. apply Hl. apply (trained_key_length _ _ h Ht).
  apply (dget_keys str_eq_dec). congruence.
Qed.

(** X6. Scoring with an order [n] other than the order [m] the model was
    trained with skips every position (no history of length [n] is a key),
    so [perplexity] returns 1 whatever the test text. *)
Theorem perplexity_order_mismatch (texts : list str) (m : nat) (lm : model)
  (test : list str) (n : nat) :
  train_char_lm texts m = Ok lm -> m <> n -> 1 <= n -> test <> [] ->
  perplexity lm test n = Ok 1%R.
Proof.
  intros Htr Hmn Hn Ht. apply perplexity_all_absent; [exact Hn|exact Ht|].
  intros i Hi. apply (@trained_other_length texts m lm _ Htr).
  rewrite length_slice_scanned by lia. congruence.
Qed.

Lemma perplexity_order_mismatch_witness :
  perplexity [(lit "~", [("a"%char, (1 # 1)%Q)]);
              (lit "a", [("b"%char, (1 # 1)%Q)])] [lit "zz"] 2 = Ok 1%R.
Proof.
  apply (@perplexity_order_mismatch [lit "ab"] 1 _ [lit "zz"] 2 eq_refl);
    [lia|lia|discriminate].
Defined.

(** X7. Generating with an order [n] other than the order [m] the model
    was trained with fails at the first step: the initial history ['~' * n]
    is not a key and [lm[history]] raises [KeyError]. *)
Theorem generate_order_mismatch (texts : list str) (m : nat) (lm : model)
  (n L : nat) (rng : nat -> Q) :
  train_char_lm texts m = Ok lm -> m <> n -> 1 <= L ->
  generate_text lm n L rng = Raise (KeyError (pad n)).
Proof.
  intros Htr Hmn HL. destruct L as [|L]; [lia|].
  unfold generate_text, generate_loop, range. cbn [seq foldM].
  unfold generate_step at 1, generate_letter, getitem.
  rewrite last_n_pad.
  rewrite (@trained_other_length texts m lm (pad n) Htr)
    by (rewrite length_pad; congruence).
  reflexivity.
Qed.

Lemma generate_order_mismatch_witness :
  generate_text [(lit "~", [("a"%char, (1 # 1)%Q)]);
                 (lit "a", [("b"%char, (1 # 1)%Q)])] 2 5 (fun _ => 0%Q)
  = Raise (KeyError (lit "~~")).
Proof.
  apply (@generate_order_mismatch [lit "ab"] 1 _ 2 5 (fun _ => 0%Q) eq_refl);
    lia.
Defined.

(** ** Scoring the training corpus itself *)

Lemma scanned_pair_counted data n i :
  i < length data - n ->
  0 < occ data n (slice data i (i + n)) (nth (i + n) data pad_char).
Proof.
  intros Hi. rewrite occ_pairs. apply count_occ_pos_In.
  unfold pairs. apply in_map_iff. exists i.
  split; [reflexivity|apply in_seq; lia].
Qed.

Lemma lookup_known lm data n i p :
  lookup lm (slice data i (i + n)) (nth (i + n) data pad_char) = Some p ->
  known_at lm data n i = true /\ unknown_at lm data n i = false.
Proof.
  unfold lookup, known_at, unknown_at.
  destruct (dget str_eq_dec lm _) as [dist|]; [|discriminate].
  intros ->. split; reflexivity.
Qed.

(** X8. Scoring the training corpus against its own model, with the same
    order, meets no unseen history and no unseen character: every scanned
    position has an entry, equal to its count ratio, and [perplexity] is
    [exp(-1 * s / len(data))] with [s] the sum of [ln p] over all scanned
    positions. *)
Theorem training_corpus_fully_scored (texts : list str) (n : nat) :
  1 <= n -> texts <> [] ->
  exists lm,
    train_char_lm texts n = Ok lm
    /\ (forall i, i < length (padded texts n) - n ->
          lookup lm (slice (padded texts n) i (i + n))
                 (nth (i + n) (padded texts n) pad_char)
          = Some (nat2Q (occ (padded texts n) n
                             (slice (padded texts n) i (i + n))
                             (nth (i + n) (padded texts n) pad_char))
                  / nat2Q (occ_hist (padded texts n) n
                                    (slice (padded texts n) i (i + n))))%Q)
    /\ perplexity lm texts n
       = Ok (exp (-1 * sum_R (map (position_term lm (padded texts n) n)
                                  (range (length (padded texts n) - n)))
                  / INR (length (padded texts n))))%R.
Proof.
  intros Hn Ht. eexists. split; [apply train_char_lm_pure|].
  set (lm := map (fun e => (fst e, normalize_pure (snd e)))
                 (count_pairs (pairs (padded texts n) n) [])).
  set (data := padded texts n).
  assert (Hlook : forall i, i < length data - n ->
            lookup lm (slice data i (i + n)) (nth (i + n) data pad_char)
            = Some (nat2Q (occ data n (slice data i (i + n))
                               (nth (i + n) data pad_char))
                    / nat2Q (occ_hist data n (slice data i (i + n))))%Q).
  { intros i Hi. unfold lm. rewrite lookup_train. fold data.
    pose proof (scanned_pair_counted data n Hi) as Hpos.
    destruct (Nat.eqb_spec (occ data n (slice data i (i + n))
                                (nth (i + n) data pad_char)) 0); [lia|reflexivity]. }
  split; [exact Hlook|].
  assert (Hv : valid_model lm)
    by (apply (@trained_valid texts n), train_char_lm_pure).
  destruct (perplexity_log_sum Hv Hn Ht) as (unk & _ & Hunk & Hper).
  fold data in Hunk, Hper. rewrite Hper.
  assert (Eunk : unk = []).
  { destruct unk as [|h unk']; [reflexivity|exfalso].
    destruct (proj1 (Hunk h) (or_introl eq_refl)) as (i & Hi & Hu & _).
    destruct (lookup_known lm data n i (Hlook i Hi)) as [_ Hk]. congruence. }
  assert (Eknown : filter (known_at lm data n) (range (length data - n))
                   = range (length data - n)).
  { apply forallb_filter_id. apply forallb_forall. intros i Hi.
    apply in_seq in Hi.
    assert (Hi' : i < length data - n) by lia.
    exact (proj1 (lookup_known lm data n i (Hlook i Hi'))). }
  rewrite Eunk, Eknown. do 3 f_equal. simpl. lra.
Qed.

Lemma training_corpus_fully_scored_witness :
  exists lm,
    train_char_lm [lit "aaa"] 1 = Ok lm
    /\ perplexity lm [lit "aaa"] 1
       = Ok (exp (-1 * sum_R (map (position_term lm (padded [lit "aaa"] 1) 1)
                                  (range (length (padded [lit "aaa"] 1) - 1)))
                  / INR (length (padded [lit "aaa"] 1))))%R.
Proof.
  destruct (@training_corpus_fully_scored [lit "aaa"] 1) as (lm & H1 & _ & H3);
    [lia|discriminate|].
  exists lm. split; assumption.
Defined.

(** ** Sampling one letter *)

(** A character returned by the sampling loop is a key of the distribution. *)
Lemma walk_key dist : forall x c, walk dist x = Some c -> In c (keys dist).
Proof.
  induction dist as [|[c0 v0] rest IH]; intros x c; simpl; [discriminate|].
  destruct (Qle_bool (x - v0) 0).
  - intros [= <-]. left. reflexivity.
  - intros H. right. exact (IH _ _ H).
Qed.

(** ** The text [generate_text] returns *)

Section Generation.
Variables (lm : model) (n : nat) (rng : nat -> Q).
Hypothesis Hn : 1 <= n.

Lemma window_snoc_old (Y : str) c i :
  i + n < length Y ->
  slice (Y ++ [c]) i (i + n) = slice Y i (i + n)
  /\ nth (i + n) (Y ++ [c]) pad_char = nth (i + n) Y pad_char.
Proof.
  intros Hi. split.
  - unfold slice. rewrite skipn_app, firstn_app, length_skipn.
    replace (i - length Y) with 0 by lia.
    replace (i + n - i - (length Y - i)) with 0 by lia.
    simpl. apply app_nil_r.
  - apply app_nth1. exact Hi.
Qed.

Lemma window_snoc_new (Y : str) c k :
  length Y = n + k ->
  slice (Y ++ [c]) k (k + n) = skipn k Y
  /\ nth (k + n) (Y ++ [c]) pad_char = c.
Proof.
  intros HY. split.
  - unfold slice. rewrite skipn_app, firstn_app, length_skipn.
    replace (k - length Y) with 0 by lia.
    replace (k + n - k - (length Y - k)) with 0 by lia.
    simpl. rewrite app_nil_r. apply firstn_all2. rewrite length_skipn. lia.
  - rewrite app_nth2 by lia. replace (k + n - length Y) with 0 by lia.
    reflexivity.
Qed.

Lemma generate_loop_invariant k : forall history out,
  generate_loop lm n rng k = Ok (history, out) ->
  length out = k
  /\ last_n history n = skipn k (pad n ++ out)
  /\ drawn_from_model lm n rng out.
Proof.
  induction k as [|k IH]; intros history out.
  - unfold generate_loop. simpl. intros [= <- <-].
    split; [reflexivity|]. split; [rewrite last_n_pad, app_nil_r; reflexivity|].
    intros i Hi. simpl in Hi. lia.
  - unfold generate_loop, range. rewrite seq_S, foldM_app.
    fold (range k). fold (generate_loop lm n rng k).
    destruct (generate_loop lm n rng k) as [[h0 o0]|e] eqn:El; [|discriminate].
    destruct (IH h0 o0 eq_refl) as (Hlen & Hhist & Hdrawn).
    cbn [bind foldM Nat.add]. unfold generate_step, generate_letter, getitem.
    destruct (dget str_eq_dec lm (last_n h0 n)) as [dist|] eqn:Ed;
      [|discriminate].
    cbn [bind]. destruct (walk dist (rng k)) as [c|] eqn:Ew; [|discriminate].
    intros [= <- <-].
    assert (HY : length (pad n ++ o0) = n + k)
      by (rewrite length_app, length_pad; lia).
    split; [rewrite length_app; simpl; lia|]. split.
    + unfold last_n at 1. destruct (Nat.eqb_spec n 0) as [|_]; [lia|].
      rewrite app_assoc, Hhist. set (Y := pad n ++ o0) in *.
      rewrite length_app, length_skipn, HY. simpl length.
      replace (n + k - k + 1 - n) with 1 by lia.
      rewrite !skipn_app, skipn_skipn, length_skipn, HY.
      replace (1 - (n + k - k)) with 0 by lia.
      replace (S k - (n + k)) with 0 by lia.
      reflexivity.
    + intros i Hi. rewrite length_app in Hi. simpl in Hi. rewrite app_assoc.
      destruct (Nat.eq_dec i k) as [->|Hik].
      * destruct (@window_snoc_new (pad n ++ o0) c k HY) as [-> ->].
        exists dist. rewrite <- Hhist. split; assumption.
      * destruct (@window_snoc_old (pad n ++ o0) c i) as [-> ->]; [lia|].
        apply Hdrawn. lia.
Qed.

End Generation.

Lemma generate_text_loop lm n L rng out :
  generate_text lm n L rng = Ok out ->
  exists history, generate_loop lm n rng L = Ok (history, out).
Proof.
  unfold generate_text.
  destruct (generate_loop lm n rng L) as [[h o]|e]; simpl; [|discriminate].
  intros [= <-]. exists h. reflexivity.
Qed.

Lemma generate_loop_length lm n rng k : forall history out,
  generate_loop lm n rng k = Ok (history, out) -> length out = k.
Proof.
  induction k as [|k IH]; intros history out.
  - unfold generate_loop. simpl. intros [= _ <-]. reflexivity.
  - unfold generate_loop, range. rewrite seq_S, foldM_app.
    fold (range k). fold (generate_loop lm n rng k).
    destruct (generate_loop lm n rng k) as [[h0 o0]|e] eqn:El; [|discriminate].
    pose proof (IH h0 o0 eq_refl) as Hlen.
    cbn [bind foldM Nat.add]. unfold generate_step.
    destruct (generate_letter lm h0 n (rng k)) as [[c|]|e]; simpl;
      try discriminate.
    intros [= _ <-]. rewrite length_app. simpl. lia.
Qed.

(** X10. When [generate_text] returns, the text has exactly
    [num_generate] characters. *)
Theorem generate_text_length (lm : model) (n L : nat) (rng : nat -> Q)
  (out : str) :
  generate_text lm n L rng = Ok out -> length out = L.
Proof.
  intros H. destruct (@generate_text_loop lm n L rng out H) as [h Hl].
  exact (@generate_loop_length lm n rng L h out Hl).
Qed.

Lemma generate_text_length_witness :
  length (lit "aba") = 3.
Proof.
  apply (@generate_text_length
           [(lit "~", [("a"%char, (1 # 1)%Q)]);
            (lit "a", [("b"%char, (1 # 1)%Q)]);
            (lit "b", [("a"%char, (1 # 1)%Q)])] 1 3 (fun _ => (1 # 2)%Q)).
  reflexivity.
Defined.

Lemma drawn_has_entry lm n rng out i :
  drawn_from_model lm n rng out -> i < length out ->
  exists p, lookup lm (slice (pad n ++ out) i (i + n))
                   (nth (i + n) (pad n ++ out) pad_char) = Some p.
Proof.
  intros Hd Hi. destruct (Hd i Hi) as (dist & Hdist & Hw).
  unfold lookup. rewrite Hdist. apply walk_key in Hw.
  apply (dget_keys ascii_dec) in Hw.
  destruct (dget ascii_dec dist _) as [p|]; [exists p; reflexivity|congruence].
Qed.

(** X11. For an order [n >= 1], a text returned by [generate_text] is
    drawn from the model step by step: its [i]-th character is the one the
    sampling loop picks, with the [i]-th draw, from the distribution stored
    for the [n] characters before it (pads included), and so has an entry
    there. *)
Theorem generated_text_drawn_from_model (lm : model) (n L : nat)
  (rng : nat -> Q) (out : str) :
  1 <= n -> generate_text lm n L rng = Ok out ->
  drawn_from_model lm n rng out
  /\ forall i, i < L ->
       exists p, lookup lm (slice (pad n ++ out) i (i + n))
                        (nth (i + n) (pad n ++ out) pad_char) = Some p.
Proof.
  intros Hn H. destruct (@generate_text_loop lm n L rng out H) as [h Hl].
  destruct (@generate_loop_invariant lm n rng Hn L h out Hl) as (Hlen & _ & Hd).
  split; [exact Hd|]. intros i Hi. apply (@drawn_has_entry lm n rng out i Hd). lia.
Qed.

Lemma generated_text_drawn_from_model_witness :
  drawn_from_model [(lit "~", [("a"%char, (1 # 1)%Q)]);
                    (lit "a", [("b"%char, (1 # 1)%Q)]);
                    (lit "b", [("a"%char, (1 # 1)%Q)])] 1
                   (fun _ => (1 # 2)%Q) (lit "aba").
Proof.
  apply (@generated_text_drawn_from_model
           [(lit "~", [("a"%char, (1 # 1)%Q)]);
            (lit "a", [("b"%char, (1 # 1)%Q)]);
            (lit "b", [("a"%char, (1 # 1)%Q)])] 1 3 (fun _ => (1 # 2)%Q)
           (lit "aba")); [lia|reflexivity].
Defined.

(** X12. Text generated from a trained model, with the order it was
    trained with, shows only what training saw: every window of [n + 1]
    characters of the padded output occurs as a (history, character) pair
    in the padded training stream. *)
Theorem generated_text_seen_in_training (texts : list str) (n : nat)
  (lm : model) (L : nat) (rng : nat -> Q) (out : str) :
  train_char_lm texts n = Ok lm -> 1 <= n ->
  generate_text lm n L rng = Ok out ->
  forall i, i < L ->
    0 < occ (padded texts n) n (slice (pad n ++ out) i (i + n))
            (nth (i + n) (pad n ++ out) pad_char).
Proof.
  intros Ht Hn H i Hi. destruct (@generate_text_loop lm n L rng out H) as [h Hl].
  destruct (@generate_loop_invariant lm n rng Hn L h out Hl) as (Hlen & _ & Hd).
  destruct (@drawn_has_entry lm n rng out i Hd) as [p Hp]; [lia|].
  rewrite train_char_lm_pure in Ht. injection Ht as <-.
  rewrite lookup_train in Hp.
  destruct (Nat.eqb_spec (occ (padded texts n) n (slice (pad n ++ out) i (i + n))
                              (nth (i + n) (pad n ++ out) pad_char)) 0);
    [discriminate|lia].
Qed.

Lemma generated_text_seen_in_training_witness :
  0 < occ (padded [lit "aba"] 1) 1 (slice (pad 1 ++ lit "abab") 3 (3 + 1))
          (nth (3 + 1) (pad 1 ++ lit "abab") pad_char).
Proof.
  apply (@generated_text_seen_in_training [lit "aba"] 1
           [(lit "~", [("a"%char, (1 # 1)%Q)]);
            (lit "a", [("b"%char, (1 # 1)%Q)]);
            (lit "b", [("a"%char, (1 # 1)%Q)])] 4 (fun _ => (1 # 2)%Q)
           (lit "abab")); [reflexivity|lia|reflexivity|lia].
Defined.

Lemma unknown_term_once_per_history_witness :
  exists unk : list str,
    NoDup unk
    /\ sum_R (map (unknown_term [(lit "~", [("a"%char, (1 # 1)%Q)]);
                                 (lit "a", [("a"%char, (2 # 2)%Q)])]) unk)
       = (INR (length unk) * ln (1 / 2))%R.
Proof.
  destruct (@unknown_term_once_per_history [lit "aaa"] 1
              [(lit "~", [("a"%char, (1 # 1)%Q)]);
               (lit "a", [("a"%char, (2 # 2)%Q)])] [lit "abab"] 1 eq_refl)
    as (unk & H1 & _ & _ & H4 & _); [lia|discriminate|].
  exists unk. split; assumption.
Defined.
